(** * The recommendation scoring engine of [recommendersystem2.py]

    A shallow embedding of the data pipeline of [RealDataSFDogMatcher]:
    the neighborhood profile builder, the dog profile builder, the three
    match scores, the ranker and the impact summarizer.

    Modelling conventions.
    - Python [float] arithmetic is modelled by exact rational arithmetic
      on [Q]; a Python [int] is a [Z] (or a [nat] for a [len]).  Rounding
      error of binary floating point is outside the model.  The order
      of a ranking depends on the very numbers stored, so it is stated
      on [ranker_with], the ranker for any score that the loop stores.
    - A value read from a pandas row is a [pyval].
    - A dog record is a Python [dict] that lives in an object store; the
      catalog [self.real_data['dogs']] and every list derived from it hold
      references (addresses) into that store, so that aliasing between
      the catalog and a request's result is visible.
    - An exception is a [Raise] in the [result] monad. *)

From Stdlib Require Import QArith Qround Qminmax Qabs Lqa ZArith Lia.
From Stdlib Require Import String Ascii Sorting.Sorted Sorting.Permutation.
From stdpp Require Import list strings.

Local Open Scope Q_scope.
Local Open Scope string_scope.

(** ** Python values *)

Inductive pyval : Type :=
| PNone
| PNaN
| PBool (b : bool)
| PInt (z : Z)
| PFloat (q : Q)
| PStr (s : string).

(** [pd.isna(value)] on a scalar. *)
Definition pd_isna (value : pyval) : bool :=
  match value with
  | PNone | PNaN => true
  | _ => false
  end.

(** [bool(value)], which is also the test of [if value:].  A NaN is a
    nonzero float and therefore true. *)
Definition py_bool (value : pyval) : bool :=
  match value with
  | PNone => false
  | PNaN => true
  | PBool b => b
  | PInt z => negb (z =? 0)%Z
  | PFloat q => negb (Qeq_bool q 0)
  | PStr s => negb (s =? "")
  end.

(** ** Strings *)

Definition lower_ascii (c : ascii) : ascii :=
  let n := N_of_ascii c in
  if ((65 <=? n) && (n <=? 90))%N then ascii_of_N (n + 32) else c.

(** [s.lower()] on ASCII text. *)
Fixpoint lower (s : string) : string :=
  match s with
  | EmptyString => EmptyString
  | String c r => String (lower_ascii c) (lower r)
  end.

(** [needle in hay] for strings. *)
Fixpoint contains (needle hay : string) : bool :=
  String.prefix needle hay
  || match hay with
     | EmptyString => false
     | String _ r => contains needle r
     end.

(** [s[:n]] *)
Definition take_str (n : nat) (s : string) : string := String.substring 0 n s.

(** [x in l] for a list of strings. *)
Definition str_in (x : string) (l : list string) : bool :=
  existsb (String.eqb x) l.

(** [d.get(k, default)] on a dict literal given as its list of items. *)
Fixpoint dict_get {V : Type} (d : list (string * V)) (k : string) (default : V) : V :=
  match d with
  | [] => default
  | (k', v) :: r => if k' =? k then v else dict_get r k default
  end.

(** [d[k]], which raises [KeyError] on a missing key. *)
Fixpoint dict_lookup {V : Type} (d : list (string * V)) (k : string) : option V :=
  match d with
  | [] => None
  | (k', v) :: r => if k' =? k then Some v else dict_lookup r k
  end.

(** ** Numbers *)

(** Round to the nearest integer, ties to the even one. *)
Definition round_half_even (x : Q) : Z :=
  let f := Qfloor x in
  let r := x - inject_Z f in
  match Qcompare r (1 # 2) with
  | Lt => f
  | Gt => (f + 1)%Z
  | Eq => if Z.even f then f else (f + 1)%Z
  end.

(** [round(x, ndigits)] *)
Definition py_round (x : Q) (ndigits : nat) : Q :=
  let p := inject_Z (10 ^ Z.of_nat ndigits) in
  inject_Z (round_half_even (x * p)) / p.

(** [sum(col) / len(col)], the mean of a non-empty column. *)
Definition mean (col : list Q) : Q :=
  fold_right Qplus 0 col / inject_Z (Z.of_nat (length col)).

(** ** Exceptions *)

Inductive exn : Type :=
| KeyError (key : string)
| TypeError
| ZeroDivisionError.

Inductive result (A : Type) : Type :=
| Ok (a : A)
| Raise (e : exn).
Arguments Ok {A} a.
Arguments Raise {A} e.

#[global] Instance result_ret : MRet result := fun A a => Ok a.

#[global] Instance result_bind : MBind result := fun A B k m =>
  match m with
  | Ok a => k a
  | Raise e => Raise e
  end.

(** ** The boolean coercion, lines 338-346 *)

Definition _parse_boolean_safe (value : pyval) : bool :=
  if pd_isna value then false
  else match value with
       | PBool b => b
       | PStr s => str_in (lower s) ["true"; "yes"; "1"; "y"]
       | _ => py_bool value
       end.

(** ** Neighborhood profile builder, lines 70-132 *)

Record RentalRow := {
  rent_analysis_neighborhood : string;
  rent_avg : Q }.

Record CrimeRow := { crime_analysis_neighborhood : string }.

Record WalkRow := {
  walk_neighborhood_name : string;
  NatWalkInd : Q }.

(** One value of the dict [neighborhoods]. *)
Record Neighborhood := {
  safety_score : Q;
  walkability_score : Q;
  avg_rent : Q;
  crime_count : nat;
  protection_need : string;
  budget_limit : Q;
  walk_index : Q }.

(** Line 100, with [max_crimes = 200]. *)
Definition safety_score_of (crime_count : nat) : Q :=
  let max_crimes := 200 in
  Qmax 0 (100 - (inject_Z (Z.of_nat crime_count) / max_crimes * 100)).

(** Line 103. *)
Definition walkability_score_of (walk_score : Q) : Q :=
  Qmin 100 ((walk_score / 20) * 100).

(** Lines 106-113. *)
Definition protection_need_of (safety_score : Q) : string :=
  if Qlt_le_dec safety_score 40 then "Very High"
  else if Qlt_le_dec safety_score 60 then "High"
  else if Qlt_le_dec safety_score 80 then "Medium"
  else "Low".

(** Line 116. *)
Definition budget_limit_of (avg_rent : Q) : Q :=
  Qmax 50 (avg_rent * 0.05).

(** The body of the loop for one neighborhood, from its crime count, its
    mean walk index and its mean rent. *)
Definition neighborhood_profile (crime_count : nat) (walk_score avg_rent : Q)
  : Neighborhood :=
  let safety_score := safety_score_of crime_count in
  let walkability_score := walkability_score_of walk_score in
  let protection_need := protection_need_of safety_score in
  let budget_limit := budget_limit_of avg_rent in
  {| safety_score := py_round safety_score 1;
     walkability_score := py_round walkability_score 1;
     avg_rent := py_round avg_rent 0;
     crime_count := crime_count;
     protection_need := protection_need;
     budget_limit := py_round budget_limit 0;
     walk_index := py_round walk_score 1 |}.

(** [rental_df['analysis_neighborhood'].dropna().unique()]: the distinct
    names in order of first appearance. *)
Fixpoint unique (names : list string) : list string :=
  match names with
  | [] => []
  | n :: r => n :: filter (fun m => m ≠ n) (unique r)
  end.

Definition _process_neighborhood_data
    (rental_df : list RentalRow) (crime_df : list CrimeRow)
    (walkability_df : list WalkRow) : list (string * Neighborhood) :=
  let unique_neighborhoods := unique (map rent_analysis_neighborhood rental_df) in
  map (fun neighborhood =>
    let neighborhood_crimes :=
      filter (fun r => crime_analysis_neighborhood r = neighborhood) crime_df in
    let crime_count := length neighborhood_crimes in
    let neighborhood_walk :=
      filter (fun r => walk_neighborhood_name r = neighborhood) walkability_df in
    let walk_score :=
      if (0 <? length neighborhood_walk)%nat
      then mean (map NatWalkInd neighborhood_walk) else 10 in
    let neighborhood_rent :=
      filter (fun r => rent_analysis_neighborhood r = neighborhood) rental_df in
    let avg_rent :=
      if (0 <? length neighborhood_rent)%nat
      then mean (map rent_avg neighborhood_rent) else 3000 in
    (neighborhood, neighborhood_profile crime_count walk_score avg_rent))
  unique_neighborhoods.

(** ** Dog profile builder, lines 134-336 *)

(** A row of [animals_df].  The columns that the builder passes through
    [str(...)] are given by that string; the others are raw values. *)
Record AnimalRow := {
  row_type : string;
  row_organization_id : string;
  row_name : pyval;
  row_primary_breed : string;
  row_size : string;
  row_age : string;
  row_special_needs : pyval;
  row_good_with_children : pyval;
  row_house_trained : pyval;
  row_shots_current : pyval;
  row_spayed_neutered : pyval;
  row_description : string;
  row_url : string;
  row_photo_medium : string }.

Record OrgRow := {
  org_organization_id : string;
  org_address_state : string;
  org_address_postcode : string;
  org_name : string;
  org_phone : string;
  org_email : string }.

Record ShelterInfo := {
  info_name : string;
  info_phone : string;
  info_email : string }.

(** A dog dict.  The first fifteen keys are set when the dict is built;
    the last four keys are absent ([None]) until a request stores them. *)
Record Dog := {
  name : string;
  breed : string;
  size : string;
  age : string;
  protection_score : Z;
  family_score : Z;
  training_score : Z;
  monthly_cost : Q;
  good_with_children : bool;
  house_trained : bool;
  shelter : string;
  shelter_phone : string;
  description : string;
  adoption_url : string;
  photo_url : string;
  compatibility_score : option Q;
  safety_improvement : option Q;
  monthly_exercise : option Q;
  deterrent_effect : option string }.

Definition protective_breeds : list string :=
  ["german shepherd"; "pit bull"; "rottweiler"; "mastiff";
   "doberman"; "boxer"; "bulldog"; "belgian"; "akita"].

Definition _calculate_protection_score (size breed age : string) : Z :=
  let score := 40%Z in
  let score :=
    if size =? "Large" then (score + 30)%Z
    else if size =? "Medium" then (score + 20)%Z
    else if size =? "Extra Large" then (score + 35)%Z
    else if size =? "Small" then (score + 5)%Z
    else score in
  let breed_lower := lower breed in
  let score :=
    if existsb (fun pb => contains pb breed_lower) protective_breeds
    then (score + 25)%Z else score in
  let score :=
    if str_in age ["Adult"; "Senior"] then (score + 10)%Z
    else if age =? "Young" then (score + 5)%Z
    else score in
  Z.min 100 score.

Definition _calculate_family_score (dog : AnimalRow) : Z :=
  let score := 60%Z in
  let score := if _parse_boolean_safe (row_good_with_children dog)
               then (score + 30)%Z else score in
  let score := if _parse_boolean_safe (row_house_trained dog)
               then (score + 15)%Z else score in
  let score := if _parse_boolean_safe (row_shots_current dog)
               then (score + 10)%Z else score in
  let score := if _parse_boolean_safe (row_spayed_neutered dog)
               then (score + 10)%Z else score in
  let score := if negb (_parse_boolean_safe (row_special_needs dog))
               then (score + 5)%Z else score in
  Z.min 100 score.

Definition _calculate_training_score (dog : AnimalRow) (age : string) : Z :=
  let score := 50%Z in
  let score := if _parse_boolean_safe (row_house_trained dog)
               then (score + 30)%Z else score in
  let score :=
    if age =? "Young" then (score + 20)%Z
    else if age =? "Adult" then (score + 15)%Z
    else if age =? "Baby" then (score + 10)%Z
    else score in
  let score := if negb (_parse_boolean_safe (row_special_needs dog))
               then (score + 15)%Z else score in
  Z.min 100 score.

Definition base_costs : list (string * Z) :=
  [("Small", 70%Z); ("Medium", 95%Z); ("Large", 125%Z); ("Extra Large", 155%Z)].

(** Lines 302-316.  [special_needs] is the raw value of the row, tested
    by [if special_needs:]. *)
Definition _calculate_monthly_cost (size : string) (special_needs : pyval) : Q :=
  let cost := inject_Z (dict_get base_costs size 95%Z) in
  let cost := if py_bool special_needs then cost * 1.4 else cost in
  py_round cost 0.

Definition _get_shelter_info (org_id : string) (organizations_df : list OrgRow)
  : ShelterInfo :=
  match filter (fun o => org_organization_id o = org_id) organizations_df with
  | org :: _ =>
      {| info_name := take_str 40 (org_name org);
         info_phone := org_phone org;
         info_email := org_email org |}
  | [] =>
      {| info_name := "Local SF Shelter";
         info_phone := "(415) 555-0000";
         info_email := "info@shelter.org" |}
  end.

(** The body of the loop of [_process_dog_data] for one row.  Slicing
    the name raises [TypeError] when the name is not a string. *)
Definition process_dog_row (dog : AnimalRow) (sf_orgs : list OrgRow) : result Dog :=
  name ← match row_name dog with
         | PStr s => Ok (take_str 30 s)
         | _ => Raise TypeError
         end;
  let breed := take_str 30 (row_primary_breed dog) in
  let size := row_size dog in
  let age := row_age dog in
  let protection_score := _calculate_protection_score size breed age in
  let family_score := _calculate_family_score dog in
  let training_score := _calculate_training_score dog age in
  let monthly_cost := _calculate_monthly_cost size (row_special_needs dog) in
  let shelter_info := _get_shelter_info (row_organization_id dog) sf_orgs in
  let good_with_children := _parse_boolean_safe (row_good_with_children dog) in
  let house_trained := _parse_boolean_safe (row_house_trained dog) in
  let description := row_description dog in
  let description :=
    if (150 <? String.length description)%nat
    then take_str 150 description ++ "..." else description in
  Ok {| name := name;
        breed := breed;
        size := size;
        age := age;
        protection_score := protection_score;
        family_score := family_score;
        training_score := training_score;
        monthly_cost := monthly_cost;
        good_with_children := good_with_children;
        house_trained := house_trained;
        shelter := info_name shelter_info;
        shelter_phone := info_phone shelter_info;
        description := description;
        adoption_url := row_url dog;
        photo_url := row_photo_medium dog;
        compatibility_score := None;
        safety_improvement := None;
        monthly_exercise := None;
        deterrent_effect := None |}.

Definition sf_zip_codes : list string :=
  ["94102"; "94103"; "94104"; "94105"; "94107"; "94108"; "94109"; "94110";
   "94111"; "94112"; "94114"; "94115"; "94116"; "94117"; "94118"; "94121";
   "94122"; "94123"; "94124"; "94127"; "94131"; "94132"; "94133"; "94134"].

(** The rows that the loop visits: lines 139-166. *)
Definition select_sf_dogs (animals_df : list AnimalRow) (organizations_df : list OrgRow)
  : list AnimalRow * list OrgRow :=
  let dogs_df := filter (fun a => row_type a = "Dog") animals_df in
  let sf_orgs :=
    filter (fun o => org_address_state o = "CA"
                     ∧ org_address_postcode o ∈ sf_zip_codes) organizations_df in
  let sf_orgs :=
    if (length sf_orgs =? 0)%nat
    then take 20 (filter (fun o => org_address_state o = "CA") organizations_df)
    else sf_orgs in
  let sf_org_ids := map org_organization_id sf_orgs in
  let sf_dogs := filter (fun a => row_organization_id a ∈ sf_org_ids) dogs_df in
  let sf_dogs :=
    if (length sf_dogs =? 0)%nat
    then
      let ca_orgs := filter (fun o => org_address_state o = "CA") organizations_df in
      let ca_org_ids := map org_organization_id ca_orgs in
      take 20 (filter (fun a => row_organization_id a ∈ ca_org_ids) dogs_df)
    else sf_dogs in
  (sf_dogs, sf_orgs).

(** [_process_dog_data]: a row whose processing raises is skipped. *)
Definition _process_dog_data (animals_df : list AnimalRow) (organizations_df : list OrgRow)
  : list Dog :=
  let '(sf_dogs, sf_orgs) := select_sf_dogs animals_df organizations_df in
  fold_right (fun dog dogs =>
                match process_dog_row dog sf_orgs with
                | Ok d => d :: dogs
                | Raise _ => dogs
                end) [] sf_dogs.

(** ** Scoring engine, lines 830-872 *)

Definition _calculate_safety_match (neighborhood_data : Neighborhood) (dog : Dog) : Q :=
  let protection_need := protection_need neighborhood_data in
  let dog_protection := inject_Z (protection_score dog) in
  if protection_need =? "Very High" then Qmin 100 (dog_protection * 1.2)
  else if protection_need =? "High" then dog_protection
  else if protection_need =? "Medium" then 100 - Qabs (dog_protection - 60) * 0.5
  else if Qlt_le_dec 40 dog_protection
       then 100 - (dog_protection - 40) * 0.3 else 100.

(** The last branch divides by [budget_limit].  The division is that of
    the built-in numbers, which raises at zero.  A zero of type
    [numpy.float64] would give [inf] and the score 0 instead (warnings
    are ignored, line 12); no profile of the builder holds a zero, its
    budget limits being at least 50. *)
Definition _calculate_budget_match (neighborhood_data : Neighborhood) (dog : Dog)
  : result Q :=
  let budget_limit := budget_limit neighborhood_data in
  let dog_cost := monthly_cost dog in
  if Qle_bool dog_cost budget_limit then Ok 100
  else if Qle_bool dog_cost (budget_limit * 1.2) then Ok 80
  else if Qeq_bool budget_limit 0 then Raise ZeroDivisionError
  else Ok (Qmax 0 (100 - (dog_cost - budget_limit) / budget_limit * 100)).

Definition pref_scores : list (string * (Z * Z)) :=
  [("Low", (0, 40)%Z); ("Medium", (40, 70)%Z);
   ("High", (70, 85)%Z); ("Very High", (85, 100)%Z)].

(** All of its arithmetic is on Python integers. *)
Definition _calculate_preference_match (protection_pref : string) (dog : Dog)
  : result Z :=
  match dict_lookup pref_scores protection_pref with
  | None => Raise (KeyError protection_pref)
  | Some (min_score, max_score) =>
      let dog_score := protection_score dog in
      if ((min_score <=? dog_score) && (dog_score <=? max_score))%Z then Ok 100%Z
      else
        let distance :=
          Z.min (Z.abs (dog_score - min_score)) (Z.abs (dog_score - max_score)) in
        Ok (Z.max 0 (100 - distance * 2))
  end.

(** ** Recommendation ranker, lines 798-828 *)

(** The combined score of lines 810-819, in exact arithmetic.  The code
    computes it in binary64, so the number it stores can differ from
    this one in the last places, and two scores that are equal here can
    differ there. *)
Definition compatibility (neighborhood_data : Neighborhood) (protection_pref : string)
    (dog : Dog) : result Q :=
  let safety_match := _calculate_safety_match neighborhood_data dog in
  budget_match ← _calculate_budget_match neighborhood_data dog;
  preference_match ← _calculate_preference_match protection_pref dog;
  Ok (safety_match * 0.4 + budget_match * 0.3 + inject_Z preference_match * 0.3).

(** The four stores [dog[k] = v] of lines 815-824 on one dict. *)
Definition with_scores (dog : Dog) (cs si me : Q) (de : string) : Dog :=
  {| name := name dog;
     breed := breed dog;
     size := size dog;
     age := age dog;
     protection_score := protection_score dog;
     family_score := family_score dog;
     training_score := training_score dog;
     monthly_cost := monthly_cost dog;
     good_with_children := good_with_children dog;
     house_trained := house_trained dog;
     shelter := shelter dog;
     shelter_phone := shelter_phone dog;
     description := description dog;
     adoption_url := adoption_url dog;
     photo_url := photo_url dog;
     compatibility_score := Some cs;
     safety_improvement := Some si;
     monthly_exercise := Some me;
     deterrent_effect := Some de |}.

(** One iteration of the loop of line 808: the dict after the stores, or
    the exception raised before the first store. *)
Definition score_dog (neighborhood_data : Neighborhood) (protection_pref : string)
    (dog : Dog) : result Dog :=
  cs ← compatibility neighborhood_data protection_pref dog;
  let ps := protection_score dog in
  Ok (with_scores dog cs
        (Qmin 30 (inject_Z ps * 0.3))
        (60 + inject_Z ps * 0.5)
        (if (80 <=? ps)%Z then "High"
         else if (60 <=? ps)%Z then "Medium" else "Low")).

#[global] Instance Dog_inhabited : Inhabited Dog :=
  populate {| name := ""; breed := ""; size := ""; age := "";
              protection_score := 0; family_score := 0; training_score := 0;
              monthly_cost := 0; good_with_children := false;
              house_trained := false; shelter := ""; shelter_phone := "";
              description := ""; adoption_url := ""; photo_url := "";
              compatibility_score := None; safety_improvement := None;
              monthly_exercise := None; deterrent_effect := None |}.

(** The object store.  [_process_dog_data] builds one dict per row, so
    the dicts of the catalog are pairwise distinct objects: the store is
    the list of these dicts and the address of a dict is its position.
    A Python list of dogs is a list of addresses. *)
Abbreviation store := (list Dog).

(** The loop [for dog in dogs:] on the store.  An exception leaves the
    stores of the earlier iterations in place. *)
Fixpoint score_loop (neighborhood_data : Neighborhood) (protection_pref : string)
    (dogs : list nat) (heap : store) : store * result unit :=
  match dogs with
  | [] => (heap, Ok tt)
  | r :: rest =>
      match score_dog neighborhood_data protection_pref (heap !!! r) with
      | Ok dog => score_loop neighborhood_data protection_pref rest (<[r:=dog]> heap)
      | Raise e => (heap, Raise e)
      end
  end.

(** [l.sort(key=..., reverse=True)] on a list decorated with its keys:
    descending, and elements with equal keys keep their order. *)
Section Sort.
Context {A : Type}.

Fixpoint insert_desc (x : Q * A) (l : list (Q * A)) : list (Q * A) :=
  match l with
  | [] => [x]
  | y :: r =>
      if Qlt_le_dec (fst x) (fst y) then y :: insert_desc x r
      else x :: y :: r
  end.

Definition sort_desc (l : list (Q * A)) : list (Q * A) :=
  fold_right insert_desc [] l.
End Sort.

(** [x[k]] on a key that a request stores: [KeyError] while absent. *)
Definition get_key {V : Type} (k : string) (field : option V) : result V :=
  match field with
  | Some v => Ok v
  | None => Raise (KeyError k)
  end.

(** The keys of the sort, computed for every element before sorting. *)
Fixpoint sort_keys (heap : store) (dogs : list nat) : result (list (Q * nat)) :=
  match dogs with
  | [] => Ok []
  | r :: rest =>
      k ← get_key "compatibility_score" (compatibility_score (heap !!! r));
      ks ← sort_keys heap rest;
      Ok ((k, r) :: ks)
  end.

Definition _get_personalized_recommendations (real_data_dogs : store)
    (neighborhood_data : Neighborhood) (size_pref protection_pref : string)
  : store * result (list nat) :=
  let dogs := seq 0 (length real_data_dogs) in
  let dogs :=
    if negb (size_pref =? "Any")
    then filter (fun dog => size (real_data_dogs !!! dog) = size_pref) dogs
    else dogs in
  match score_loop neighborhood_data protection_pref dogs real_data_dogs with
  | (heap, Raise e) => (heap, Raise e)
  | (heap, Ok _) =>
      (heap, keyed ← sort_keys heap dogs;
             Ok (take 5 (map snd (sort_desc keyed))))
  end.

(** The ranker with the arithmetic of the loop body left open.  [scorer]
    stands for lines 809-824 on one dict: it gives the dict after the
    four stores, or the exception raised before the first store.  The
    number it stores under 'compatibility_score' is a rational whatever
    the arithmetic that computes it: a finite binary64 value is one, and
    the sort compares such values as the rationals they are.
    [_get_personalized_recommendations] is this ranker at [score_dog]. *)
Fixpoint score_loop_with (scorer : Dog -> result Dog)
    (dogs : list nat) (heap : store) : store * result unit :=
  match dogs with
  | [] => (heap, Ok tt)
  | r :: rest =>
      match scorer (heap !!! r) with
      | Ok dog => score_loop_with scorer rest (<[r:=dog]> heap)
      | Raise e => (heap, Raise e)
      end
  end.

Definition ranker_with (scorer : Dog -> result Dog) (real_data_dogs : store)
    (size_pref : string) : store * result (list nat) :=
  let dogs := seq 0 (length real_data_dogs) in
  let dogs :=
    if negb (size_pref =? "Any")
    then filter (fun dog => size (real_data_dogs !!! dog) = size_pref) dogs
    else dogs in
  match score_loop_with scorer dogs real_data_dogs with
  | (heap, Raise e) => (heap, Raise e)
  | (heap, Ok _) =>
      (heap, keyed ← sort_keys heap dogs;
             Ok (take 5 (map snd (sort_desc keyed))))
  end.

(** The key under which the sort sees the dog at address [r]: the
    compatibility score that [scorer] stores on its dict. *)
Definition stored_key (scorer : Dog -> result Dog) (heap : store) (r : nat) : Q :=
  match scorer (heap !!! r) with
  | Ok dog => default 0 (compatibility_score dog)
  | Raise _ => 0
  end.

(** ** Impact summarizer, lines 874-902 *)

Record ImpactMetrics := {
  current_safety_score : Q;
  new_safety_score : Q;
  impact_safety_improvement : Q;
  dogs_saved : nat;
  monthly_walking_hours : Q;
  impact_deterrent_effect : string;
  community_connections : string }.

(** The returned dict: [None] is the empty dict [{}]. *)
Definition _calculate_impact_metrics (heap : store) (neighborhood_data : Neighborhood)
    (recommended_dogs : list nat) : result (option ImpactMetrics) :=
  match recommended_dogs with
  | [] => Ok None
  | top :: _ =>
      let top_dog := heap !!! top in
      let current_safety := safety_score neighborhood_data in
      safety_boost ← get_key "safety_improvement" (safety_improvement top_dog);
      let new_safety_score := Qmin 100 (current_safety + safety_boost) in
      let dogs_saved := length recommended_dogs in
      walking_minutes ← get_key "monthly_exercise" (monthly_exercise top_dog);
      let monthly_walking_hours := walking_minutes * 30 / 60 in
      deterrent ← get_key "deterrent_effect" (deterrent_effect top_dog);
      Ok (Some {| current_safety_score := current_safety;
                  new_safety_score := new_safety_score;
                  impact_safety_improvement := safety_boost;
                  dogs_saved := dogs_saved;
                  monthly_walking_hours := monthly_walking_hours;
                  impact_deterrent_effect := deterrent;
                  community_connections :=
                    if Qlt_le_dec 75 walking_minutes then "High" else "Medium" |})
  end.

(** ** The entry point, lines 770-796 *)

Record RealData := {
  neighborhoods : list (string * Neighborhood);
  dogs : store }.

(** What the callback hands to the presentation layer.  [Results] stands
    for the layout that [_create_results_layout] renders from its
    arguments; the dogs are the dicts as they are when it is built. *)
Inductive Page : Type :=
| SelectPrompt
| NotFound (neighborhood : string)
| NoMatches
| Results (neighborhood : string) (neighborhood_data : Neighborhood)
          (recommended_dogs : list Dog) (impact_metrics : option ImpactMetrics).

Definition _create_results_layout (heap : store) (neighborhood : string)
    (neighborhood_data : Neighborhood) (recommended_dogs : list nat)
    (impact_metrics : option ImpactMetrics) : Page :=
  match recommended_dogs with
  | [] => NoMatches
  | _ => Results neighborhood neighborhood_data
           (map (fun r => heap !!! r) recommended_dogs) impact_metrics
  end.

(** [not neighborhood] for the value of the dropdown. *)
Definition not_neighborhood (neighborhood : option string) : bool :=
  match neighborhood with
  | None => true
  | Some s => s =? ""
  end.

Definition update_recommendations (real_data : RealData) (n_clicks : Z)
    (neighborhood : option string) (size_pref protection_pref : string)
  : RealData * result Page :=
  if (n_clicks =? 0)%Z || not_neighborhood neighborhood
  then (real_data, Ok SelectPrompt)
  else
    let neighborhood := default "" neighborhood in
    match dict_lookup (neighborhoods real_data) neighborhood with
    | None => (real_data, Ok (NotFound neighborhood))
    | Some neighborhood_data =>
        let '(heap, recommended) :=
          _get_personalized_recommendations (dogs real_data) neighborhood_data
            size_pref protection_pref in
        let real_data :=
          {| neighborhoods := neighborhoods real_data; dogs := heap |} in
        (real_data,
         recommended_dogs ← recommended;
         impact_metrics ←
           _calculate_impact_metrics heap neighborhood_data recommended_dogs;
         Ok (_create_results_layout heap neighborhood neighborhood_data
               recommended_dogs impact_metrics))
    end.

(** [_load_real_data] after the five tables have been read. *)
Definition load_real_data (rental_df : list RentalRow) (crime_df : list CrimeRow)
    (walkability_df : list WalkRow) (animals_df : list AnimalRow)
    (organizations_df : list OrgRow) : RealData :=
  {| neighborhoods := _process_neighborhood_data rental_df crime_df walkability_df;
     dogs := _process_dog_data animals_df organizations_df |}.

(** ** Sample data *)

Definition sample_row (nm sz : string) (special : pyval) : AnimalRow :=
  {| row_type := "Dog"; row_organization_id := "CA1";
     row_name := PStr nm; row_primary_breed := "German Shepherd Mix";
     row_size := sz; row_age := "Adult";
     row_special_needs := special;
     row_good_with_children := PBool true; row_house_trained := PStr "Yes";
     row_shots_current := PNaN; row_spayed_neutered := PInt 1;
     row_description := "Friendly"; row_url := "https://petfinder.com";
     row_photo_medium := "" |}.

Definition sample_org : OrgRow :=
  {| org_organization_id := "CA1"; org_address_state := "CA";
     org_address_postcode := "94110"; org_name := "Mission Rescue";
     org_phone := "(415) 555-0101"; org_email := "hello@rescue.org" |}.

Definition sample_data : RealData :=
  load_real_data
    [ {| rent_analysis_neighborhood := "Mission"; rent_avg := 2000 |} ]
    [ {| crime_analysis_neighborhood := "Mission" |} ]
    [ {| walk_neighborhood_name := "Mission"; NatWalkInd := 15 |} ]
    [ sample_row "Rex" "Large" (PBool false);
      sample_row "Bo" "Small" PNaN;
      sample_row "Ace" "Large" (PBool false) ]
    [ sample_org ].

(** ** Vocabulary of the properties *)

(** A string that equals one of the four accepted words up to case. *)
Definition truthy_text (s : string) : Prop :=
  lower s = "true" \/ lower s = "yes" \/ lower s = "1" \/ lower s = "y".

(** [clamp(lo, hi, x)] *)
Definition clamp (lo hi x : Q) : Q := Qmax lo (Qmin hi x).

(** The order of the protection needs, from the least to the greatest. *)
Definition need_rank (need : string) : nat :=
  if need =? "Very High" then 3
  else if need =? "High" then 2
  else if need =? "Medium" then 1
  else 0.

(** The four values of the protection-preference dropdown. *)
Inductive ProtectionPref : Type := PrefLow | PrefMedium | PrefHigh | PrefVeryHigh.

Definition pref_value (p : ProtectionPref) : string :=
  match p with
  | PrefLow => "Low"
  | PrefMedium => "Medium"
  | PrefHigh => "High"
  | PrefVeryHigh => "Very High"
  end.

(** A dog dict without the keys that a request stores. *)
Definition at_construction (dog : Dog) : Dog :=
  {| name := name dog;
     breed := breed dog;
     size := size dog;
     age := age dog;
     protection_score := protection_score dog;
     family_score := family_score dog;
     training_score := training_score dog;
     monthly_cost := monthly_cost dog;
     good_with_children := good_with_children dog;
     house_trained := house_trained dog;
     shelter := shelter dog;
     shelter_phone := shelter_phone dog;
     description := description dog;
     adoption_url := adoption_url dog;
     photo_url := photo_url dog;
     compatibility_score := None;
     safety_improvement := None;
     monthly_exercise := None;
     deterrent_effect := None |}.

(** The compatibility score as a number, where it is defined. *)
Definition score_of (neighborhood_data : Neighborhood) (protection_pref : string)
    (dog : Dog) : Q :=
  match compatibility neighborhood_data protection_pref dog with
  | Ok cs => cs
  | Raise _ => 0
  end.

(** The dogs that the size filter keeps, as addresses in catalog order. *)
Definition retained (heap : store) (size_pref : string) : list nat :=
  filter (fun r => size_pref = "Any" \/ size (heap !!! r) = size_pref)
         (seq 0 (length heap)).

#[global] Instance Qeq_decision (x y : Q) : Decision (x == y) := Qeq_dec x y.

(** Descending by key, for a list decorated with its keys. *)
Definition desc {A : Type} (x y : Q * A) : Prop := fst y <= fst x.

(** Descending by the compatibility score of a dog of the store. *)
Definition by_score (key : nat -> Q) (a b : nat) : Prop := key b <= key a.

(** Every element of a decorated list carries the key of its dog. *)
Definition keyed_by (key : nat -> Q) (l : list (Q * nat)) : Prop :=
  forall x, x ∈ l -> fst x = key (snd x).

(** What a caller sees of a ranker outcome: the ranked dicts as they are
    in the store that the call left, and their impact summary. *)
Definition ranked_dogs (out : store * result (list nat)) : result (list Dog) :=
  recs ← snd out; Ok (map (fun r => fst out !!! r) recs).

Definition impact_of (neighborhood_data : Neighborhood)
    (out : store * result (list nat)) : result (option ImpactMetrics) :=
  recs ← snd out; _calculate_impact_metrics (fst out) neighborhood_data recs.

Definition sample_neighborhood : Neighborhood := neighborhood_profile 1 15 2000.

Definition sample_dogs : store := dogs sample_data.

Ltac need_cases :=
  unfold protection_need_of;
  repeat match goal with
         | |- context [Qlt_le_dec ?a ?b] => destruct (Qlt_le_dec a b)
         end.

(** ** Card colours, lines 518-530 *)

Definition _get_safety_color (score : Q) : string :=
  if Qle_bool 80 score then "#27ae60"
  else if Qle_bool 60 score then "#f39c12"
  else if Qle_bool 40 score then "#e67e22"
  else "#e74c3c".

Definition _get_crime_color (count : nat) : string :=
  if (count <=? 30)%nat then "#27ae60"
  else if (count <=? 60)%nat then "#f39c12"
  else if (count <=? 100)%nat then "#e67e22"
  else "#e74c3c".

(** The three quantities that the loop of [_process_neighborhood_data]
    derives from the tables for one name. *)
Definition crimes_of (crime_df : list CrimeRow) (neighborhood : string) : nat :=
  length (filter (fun r => crime_analysis_neighborhood r = neighborhood) crime_df).

Definition walk_rows_of (walkability_df : list WalkRow) (neighborhood : string)
  : list Q :=
  map NatWalkInd
      (filter (fun r => walk_neighborhood_name r = neighborhood) walkability_df).

Definition rent_rows_of (rental_df : list RentalRow) (neighborhood : string)
  : list Q :=
  map rent_avg
      (filter (fun r => rent_analysis_neighborhood r = neighborhood) rental_df).

(** The name that the catalog keeps for a row: [None] when slicing the
    raw name raises. *)
Definition catalog_name (row : AnimalRow) : option string :=
  match row_name row with
  | PStr s => Some (take_str 30 s)
  | _ => None
  end.

Definition placeholder_shelter : ShelterInfo :=
  {| info_name := "Local SF Shelter";
     info_phone := "(415) 555-0000";
     info_email := "info@shelter.org" |}.

Definition far_org : OrgRow :=
  {| org_organization_id := "CA7"; org_address_state := "CA";
     org_address_postcode := "94110"; org_name := "Far Rescue";
     org_phone := "(415) 555-0199"; org_email := "far@rescue.org" |}.

Definition valley_org : OrgRow :=
  {| org_organization_id := "CA1"; org_address_state := "CA";
     org_address_postcode := "95000"; org_name := "Valley Rescue";
     org_phone := "(408) 555-0100"; org_email := "valley@rescue.org" |}.

(** The acceptance band of a protection preference, as in [pref_scores]. *)
Definition band (p : ProtectionPref) : Z * Z :=
  match p with
  | PrefLow => (0, 40)%Z
  | PrefMedium => (40, 70)%Z
  | PrefHigh => (70, 85)%Z
  | PrefVeryHigh => (85, 100)%Z
  end.

(** A dog that differs from [sample_dogs !!! 0] in its cost only. *)
Definition priced (cost : Q) : Dog :=
  {| name := "Rex"; breed := "Boxer"; size := "Large"; age := "Adult";
     protection_score := 90; family_score := 80; training_score := 80;
     monthly_cost := cost; good_with_children := true;
     house_trained := true; shelter := "Mission Rescue";
     shelter_phone := "(415) 555-0101"; description := "Friendly";
     adoption_url := "https://petfinder.com"; photo_url := "";
     compatibility_score := None; safety_improvement := None;
     monthly_exercise := None; deterrent_effect := None |}.

(** * Rounding *)

Lemma round_half_even_floor (x : Q) :
  (Qfloor x <= round_half_even x <= Qfloor x + 1)%Z.
Proof.
  unfold round_half_even.
  destruct (Qcompare _ _); [destruct (Z.even _) | |]; lia.
Qed.

Lemma round_half_even_lower (x : Q) (n : Z) :
  inject_Z n <= x -> (n <= round_half_even x)%Z.
Proof.
  intros H. apply Qfloor_resp_le in H. rewrite Qfloor_Z in H.
  pose proof (round_half_even_floor x). lia.
Qed.

Lemma round_half_even_upper (x : Q) (n : Z) :
  x <= inject_Z n -> (round_half_even x <= n)%Z.
Proof.
  intros H. pose proof (Qfloor_resp_le _ _ H) as Hf. rewrite Qfloor_Z in Hf.
  unfold round_half_even.
  assert (Hstep : 0 < x - inject_Z (Qfloor x) -> (Qfloor x + 1 <= n)%Z).
  { intros Hr. destruct (Z.eq_dec (Qfloor x) n) as [E|E]; [|lia].
    rewrite E in Hr. lra. }
  destruct (Qcompare _ _) eqn:E.
  - apply Qeq_alt in E. destruct (Z.even _); [lia|]. apply Hstep. lra.
  - lia.
  - apply Qgt_alt in E. apply Hstep. lra.
Qed.

Lemma round_half_even_Z (x : Q) (n : Z) :
  x == inject_Z n -> round_half_even x = n.
Proof.
  intros H. apply Z.le_antisymm.
  - apply round_half_even_upper. lra.
  - apply round_half_even_lower. lra.
Qed.

(** Rounding to [ndigits] decimals keeps a value on the same side of a
    bound that itself has at most that many decimals. *)
Lemma py_round_lower (x : Q) (ndigits : nat) (n : Z) :
  inject_Z n / inject_Z (10 ^ Z.of_nat ndigits) <= x ->
  inject_Z n / inject_Z (10 ^ Z.of_nat ndigits) <= py_round x ndigits.
Proof.
  intros H. unfold py_round.
  assert (Hp : 0 < inject_Z (10 ^ Z.of_nat ndigits)).
  { change 0 with (inject_Z 0). rewrite <- Zlt_Qlt. lia. }
  set (p := inject_Z (10 ^ Z.of_nat ndigits)) in *.
  assert (Hn : inject_Z n / p * p == inject_Z n) by (field; lra).
  assert (Hx : inject_Z n <= x * p).
  { rewrite <- Hn. apply Qmult_le_r; assumption. }
  apply round_half_even_lower in Hx. rewrite Zle_Qle in Hx.
  apply Qle_shift_div_l; [exact Hp|]. rewrite Hn. exact Hx.
Qed.

Lemma py_round_upper (x : Q) (ndigits : nat) (n : Z) :
  x <= inject_Z n / inject_Z (10 ^ Z.of_nat ndigits) ->
  py_round x ndigits <= inject_Z n / inject_Z (10 ^ Z.of_nat ndigits).
Proof.
  intros H. unfold py_round.
  assert (Hp : 0 < inject_Z (10 ^ Z.of_nat ndigits)).
  { change 0 with (inject_Z 0). rewrite <- Zlt_Qlt. lia. }
  set (p := inject_Z (10 ^ Z.of_nat ndigits)) in *.
  assert (Hn : inject_Z n / p * p == inject_Z n) by (field; lra).
  assert (Hx : x * p <= inject_Z n).
  { rewrite <- Hn. apply Qmult_le_r; assumption. }
  apply round_half_even_upper in Hx. rewrite Zle_Qle in Hx.
  apply Qle_shift_div_r; [exact Hp|]. rewrite Hn. exact Hx.
Qed.

(** A value with at most [ndigits] decimals is its own rounding. *)
Lemma py_round_exact (x : Q) (ndigits : nat) (n : Z) :
  x == inject_Z n / inject_Z (10 ^ Z.of_nat ndigits) ->
  py_round x ndigits == x.
Proof.
  intros H. apply Qle_antisym.
  - rewrite H at 2. apply py_round_upper. lra.
  - rewrite H at 1. apply py_round_lower. lra.
Qed.

(** * The boolean coercion *)

Lemma str_in_truthy (s : string) :
  str_in (lower s) ["true"; "yes"; "1"; "y"] = true <-> truthy_text s.
Proof.
  unfold str_in, truthy_text. cbn [existsb].
  rewrite !orb_true_iff, !String.eqb_eq. intuition discriminate.
Qed.

(** C4, as amended.  [_parse_boolean_safe] is false on an absent value
    and on NaN, and is true exactly on the boolean true, on a string that
    equals "true", "yes", "1" or "y" up to case, and on a number other
    than zero: a value that is neither missing, a boolean nor a string
    is coerced by [bool(value)]. *)
Theorem parse_boolean_safe_true_iff (value : pyval) :
  _parse_boolean_safe PNone = false /\
  _parse_boolean_safe PNaN = false /\
  (_parse_boolean_safe value = true <->
     value = PBool true
     \/ (exists s, value = PStr s /\ truthy_text s)
     \/ (exists z, value = PInt z /\ z <> 0%Z)
     \/ (exists q, value = PFloat q /\ ~ q == 0)).
Proof.
  split; [reflexivity|]. split; [reflexivity|].
  destruct value as [| |b|z|q|s]; unfold _parse_boolean_safe; cbn [pd_isna py_bool].
  - split; [discriminate|]. intros [H|[[? [H _]]|[[? [H _]]|[? [H _]]]]]; discriminate.
  - split; [discriminate|]. intros [H|[[? [H _]]|[[? [H _]]|[? [H _]]]]]; discriminate.
  - split.
    + intros ->. by left.
    + intros [H|[[? [H _]]|[[? [H _]]|[? [H _]]]]]; try discriminate. by injection H.
  - rewrite negb_true_iff, Z.eqb_neq. split.
    + intros H. right; right; left. eauto.
    + intros [H|[[? [H _]]|[[? [H Hz]]|[? [H _]]]]]; try discriminate.
      injection H as ->. exact Hz.
  - rewrite negb_true_iff. split.
    + intros H. right; right; right. exists q. split; [done|].
      intros E. apply Qeq_bool_iff in E. congruence.
    + intros [H|[[? [H _]]|[[? [H _]]|[? [H Hq]]]]]; try discriminate.
      injection H as ->. destruct (Qeq_bool x 0) eqn:E; [|done].
      apply Qeq_bool_iff in E. contradiction.
  - rewrite str_in_truthy. split.
    + intros H. right; left. eauto.
    + intros [H|[[? [H Hs]]|[[? [H _]]|[? [H _]]]]]; try discriminate.
      by injection H as ->.
Qed.

(** C4, counterexample.  The integer 5 is neither the boolean true nor
    a string, and it is coerced to true. *)
Lemma parse_boolean_safe_nonzero_number :
  _parse_boolean_safe (PInt 5) = true
  /\ ~ (PInt 5 = PBool true \/ exists s, PInt 5 = PStr s /\ truthy_text s).
Proof.
  split; [reflexivity|]. intros [H|[s [H _]]]; discriminate.
Qed.


(** * Monthly cost *)

Lemma base_cost_cases (size : string) :
  let cost := dict_get base_costs size 95%Z in
  cost = 70%Z \/ cost = 95%Z \/ cost = 125%Z \/ cost = 155%Z.
Proof.
  unfold base_costs. cbn [dict_get].
  repeat (destruct (_ =? size); [tauto|]). tauto.
Qed.

(** The cost is the base cost of the size, times 1.4 exactly when the
    raw special-needs value is true for [if special_needs:]; the rounding
    changes nothing, the four inflated costs being whole numbers. *)
Lemma monthly_cost_by_truthiness (size : string) (special_needs : pyval) :
  _calculate_monthly_cost size special_needs ==
  if py_bool special_needs
  then inject_Z (dict_get base_costs size 95%Z) * 1.4
  else inject_Z (dict_get base_costs size 95%Z).
Proof.
  unfold _calculate_monthly_cost.
  pose proof (base_cost_cases size) as H.
  destruct (py_bool special_needs);
    destruct H as [-> | [-> | [-> | ->]]]; reflexivity.
Qed.

(** C2, the code at the failing input.  A NaN special-needs value
    coerces to false under [_parse_boolean_safe], yet the monthly cost of
    a Small dog with that value is 98 = 70 * 1.4 and not 70: the builder
    hands the raw value to [_calculate_monthly_cost], where NaN is true. *)
Theorem monthly_cost_inflated_for_nan :
  _parse_boolean_safe PNaN = false
  /\ _calculate_monthly_cost "Small" PNaN == 98
  /\ ~ _calculate_monthly_cost "Small" PNaN == 70
  /\ exists dog, process_dog_row (sample_row "Bo" "Small" PNaN) [sample_org] = Ok dog
                 /\ monthly_cost dog == 98.
Proof.
  split; [reflexivity|]. split; [reflexivity|]. split; [discriminate|].
  eexists. split; reflexivity.
Qed.

(** * Walkability *)

Lemma walkability_score_of_le (walk_score : Q) :
  walkability_score_of walk_score <= 100.
Proof. unfold walkability_score_of. apply Q.le_min_l. Qed.

Lemma walkability_score_of_nonneg (walk_score : Q) :
  0 <= walk_score -> 0 <= walkability_score_of walk_score.
Proof.
  intros H. unfold walkability_score_of.
  assert (E : walk_score / 20 * 100 == walk_score * 5) by field.
  rewrite E. apply Q.min_glb; lra.
Qed.

Lemma py_round_1_le_100 (x : Q) : x <= 100 -> py_round x 1 <= 100.
Proof.
  intros H.
  assert (E : 100 == inject_Z 1000 / inject_Z (10 ^ Z.of_nat 1)) by reflexivity.
  rewrite E. apply py_round_upper. rewrite <- E. exact H.
Qed.

Lemma py_round_1_nonneg (x : Q) : 0 <= x -> 0 <= py_round x 1.
Proof.
  intros H.
  assert (E : 0 == inject_Z 0 / inject_Z (10 ^ Z.of_nat 1)) by reflexivity.
  rewrite E. apply py_round_lower. rewrite <- E. exact H.
Qed.

(** C3, as amended.  The walkability score is [min(100, walk_score/20*100)]:
    it is at most 100 for every walk index, also as stored (rounded to one
    decimal), and for a walk index that is not negative it equals
    [clamp(0, 100, walk_score/20*100)] and lies in [0,100]. *)
Theorem walkability_score_upper_clamp
    (crime_count : nat) (walk_score avg_rent : Q) :
  let stored := walkability_score (neighborhood_profile crime_count walk_score avg_rent) in
  walkability_score_of walk_score == Qmin 100 (walk_score * 5)
  /\ walkability_score_of walk_score <= 100
  /\ stored <= 100
  /\ (0 <= walk_score ->
      walkability_score_of walk_score == clamp 0 100 (walk_score / 20 * 100)
      /\ 0 <= walkability_score_of walk_score
      /\ 0 <= stored).
Proof.
  cbn zeta. split; [|split; [|split]].
  - unfold walkability_score_of.
    assert (E : walk_score / 20 * 100 == walk_score * 5) by (field).
    rewrite E. reflexivity.
  - apply walkability_score_of_le.
  - cbn. apply py_round_1_le_100, walkability_score_of_le.
  - intros H. pose proof (walkability_score_of_nonneg _ H) as Hn.
    split; [|split].
    + unfold clamp. fold (walkability_score_of walk_score).
      rewrite Q.max_r; [reflexivity | exact Hn].
    + exact Hn.
    + cbn. apply py_round_1_nonneg, Hn.
Qed.

Lemma walkability_score_upper_clamp_witness :
  0 <= 15 /\ walkability_score_of 15 == 75.
Proof.
  assert (H : 0 <= 15) by (vm_compute; discriminate).
  split; [exact H|].
  destruct (walkability_score_upper_clamp 0 15 2000) as (_ & _ & _ & Hc).
  destruct (Hc H) as (-> & _). reflexivity.
Defined.

(** C3, counterexample.  For the walk index -4 the score is -20: below 0
    and different from the two-sided clamp, also as stored. *)
Lemma walkability_score_negative :
  walkability_score_of (-4) == -20
  /\ ~ 0 <= walkability_score_of (-4)
  /\ ~ walkability_score_of (-4) == clamp 0 100 (-4 / 20 * 100)
  /\ walkability_score (neighborhood_profile 0 (-4) 2000) == -20.
Proof.
  split; [reflexivity|]. split; [|split; [|reflexivity]].
  - vm_compute. intros H. apply H. reflexivity.
  - vm_compute. discriminate.
Qed.

(** * Protection need *)

Lemma protection_need_of_comp (x y : Q) :
  x == y -> protection_need_of x = protection_need_of y.
Proof. intros E. need_cases; try reflexivity; lra. Qed.

Lemma safety_score_of_tenths (crime_count : nat) :
  safety_score_of crime_count ==
  inject_Z (Z.max 0 (1000 - 5 * Z.of_nat crime_count))
  / inject_Z (10 ^ Z.of_nat 1).
Proof.
  unfold safety_score_of. change (10 ^ Z.of_nat 1)%Z with 10%Z.
  set (z := Z.of_nat crime_count).
  assert (Ez : inject_Z (1000 - 5 * z) == 1000 - 5 * inject_Z z).
  { unfold Z.sub. rewrite inject_Z_plus, inject_Z_opp, inject_Z_mult. reflexivity. }
  assert (Eq : 100 - inject_Z z / 200 * 100 == (1000 - 5 * inject_Z z) / 10)
    by field.
  change (inject_Z 10) with 10.
  destruct (Z.max_spec 0 (1000 - 5 * z)) as [[Hz ->] | [Hz ->]].
  - rewrite Zlt_Qlt, Ez in Hz. change (inject_Z 0) with 0 in Hz.
    rewrite Q.max_r; [| rewrite Eq].
    + rewrite Ez. exact Eq.
    + apply Qle_shift_div_l; [reflexivity | lra].
  - rewrite Zle_Qle, Ez in Hz. change (inject_Z 0) with 0 in *.
    rewrite Q.max_l; [reflexivity | rewrite Eq].
    apply Qle_shift_div_r; [reflexivity | lra].
Qed.

Lemma safety_score_stored_exact (crime_count : nat) (walk_score avg_rent : Q) :
  safety_score (neighborhood_profile crime_count walk_score avg_rent)
  == safety_score_of crime_count.
Proof. cbn. eapply py_round_exact, safety_score_of_tenths. Qed.

(** C5.  [protection_need] is the step function of the safety score
    with strict bounds: below 40 Very High, from 40 below 60 High, from 60
    below 80 Medium, from 80 Low; 40, 60 and 80 yield High, Medium and
    Low; the need does not grow with the score; and the need stored in a
    profile is the step function of the stored safety score. *)
Theorem protection_need_step_function
    (s s' : Q) (crime_count : nat) (walk_score avg_rent : Q) :
  (s < 40 -> protection_need_of s = "Very High")
  /\ (40 <= s -> s < 60 -> protection_need_of s = "High")
  /\ (60 <= s -> s < 80 -> protection_need_of s = "Medium")
  /\ (80 <= s -> protection_need_of s = "Low")
  /\ protection_need_of 39.9 = "Very High"
  /\ protection_need_of 40 = "High"
  /\ protection_need_of 59.9 = "High"
  /\ protection_need_of 60 = "Medium"
  /\ protection_need_of 79.9 = "Medium"
  /\ protection_need_of 80 = "Low"
  /\ (s <= s' ->
      (need_rank (protection_need_of s') <= need_rank (protection_need_of s))%nat)
  /\ protection_need (neighborhood_profile crime_count walk_score avg_rent)
     = protection_need_of
         (safety_score (neighborhood_profile crime_count walk_score avg_rent)).
Proof.
  repeat split; try reflexivity.
  - intros H. need_cases; try reflexivity; lra.
  - intros H1 H2. need_cases; try reflexivity; lra.
  - intros H1 H2. need_cases; try reflexivity; lra.
  - intros H. need_cases; try reflexivity; lra.
  - intros H. need_cases; cbn; try lia; lra.
  - symmetry. apply protection_need_of_comp, safety_score_stored_exact.
Qed.

Lemma protection_need_step_function_witness :
  40 <= 45 /\ 45 < 60 /\ protection_need_of 45 = "High"
  /\ (need_rank (protection_need_of 70) <= need_rank (protection_need_of 45))%nat.
Proof.
  assert (H1 : 40 <= 45) by (vm_compute; discriminate).
  assert (H2 : 45 < 60) by reflexivity.
  assert (H3 : 45 <= 70) by (vm_compute; discriminate).
  destruct (protection_need_step_function 45 70 0 10 2000)
    as (_ & Hh & _ & _ & _ & _ & _ & _ & _ & _ & Hm & _).
  exact (conj H1 (conj H2 (conj (Hh H1 H2) (Hm H3)))).
Defined.

(** * The three match scores *)

Section Scores.
Variables (neighborhood_data : Neighborhood) (dog : Dog).
Hypothesis protection_lo : (0 <= protection_score dog)%Z.
Hypothesis protection_hi : (protection_score dog <= 100)%Z.

Lemma dog_protection_bounds :
  0 <= inject_Z (protection_score dog) <= 100.
Proof.
  split.
  - change 0 with (inject_Z 0). by rewrite <- Zle_Qle.
  - change 100 with (inject_Z 100). by rewrite <- Zle_Qle.
Qed.

Lemma safety_match_bounds :
  0 <= _calculate_safety_match neighborhood_data dog <= 100.
Proof.
  pose proof dog_protection_bounds as [Hlo Hhi].
  unfold _calculate_safety_match.
  set (p := inject_Z (protection_score dog)) in *.
  destruct (_ =? "Very High"); [|destruct (_ =? "High"); [|destruct (_ =? "Medium")]].
  - split; [apply Q.min_glb; lra | apply Q.le_min_l].
  - lra.
  - pose proof (Qabs_nonneg (p - 60)) as Ha.
    assert (Hb : Qabs (p - 60) <= 60) by (apply Qabs_Qle_condition; lra).
    lra.
  - destruct (Qlt_le_dec 40 p); lra.
Qed.

Lemma budget_match_bounds :
  50 <= budget_limit neighborhood_data ->
  exists budget_match,
    _calculate_budget_match neighborhood_data dog = Ok budget_match
    /\ 0 <= budget_match <= 100.
Proof.
  intros Hb. unfold _calculate_budget_match.
  set (b := budget_limit neighborhood_data) in *.
  set (c := monthly_cost dog).
  destruct (Qle_bool c b) eqn:E1; [exists 100; split; [done | lra]|].
  destruct (Qle_bool c (b * 1.2)) eqn:E2; [exists 80; split; [done | lra]|].
  destruct (Qeq_bool b 0) eqn:E3; [apply Qeq_bool_iff in E3; lra|].
  eexists. split; [reflexivity|].
  assert (Hc : b < c).
  { apply Qnot_le_lt. intros H. apply Qle_bool_iff in H. congruence. }
  split; [apply Q.le_max_l|]. apply Q.max_lub; [lra|].
  assert (0 <= (c - b) / b) by (apply Qle_shift_div_l; lra).
  lra.
Qed.

Lemma preference_match_bounds (pref : ProtectionPref) :
  exists preference_match,
    _calculate_preference_match (pref_value pref) dog = Ok preference_match
    /\ (0 <= preference_match <= 100)%Z.
Proof.
  clear protection_lo protection_hi.
  unfold _calculate_preference_match.
  destruct pref; cbn [pref_value pref_scores dict_lookup String.eqb Ascii.eqb Bool.eqb];
    (destruct (_ && _); eexists; (split; [reflexivity | lia])).
Qed.
End Scores.

(** * The sort *)


Section SortFacts.
Context {A : Type}.
Implicit Types (x : Q * A) (l : list (Q * A)).

Lemma insert_desc_perm x l : insert_desc x l ≡ₚ x :: l.
Proof.
  induction l as [|y r IH]; cbn; [done|].
  destruct (Qlt_le_dec _ _); [|done].
  rewrite IH. apply Permutation_swap.
Qed.

Lemma sort_desc_perm l : sort_desc l ≡ₚ l.
Proof.
  induction l as [|x r IH]; cbn; [done|].
  rewrite insert_desc_perm. by rewrite IH.
Qed.

Lemma insert_desc_sorted x l :
  StronglySorted desc l -> StronglySorted desc (insert_desc x l).
Proof.
  induction 1 as [|y r Hr IH Hy]; cbn.
  - repeat constructor.
  - destruct (Qlt_le_dec _ _) as [Hlt|Hle].
    + constructor; [exact IH|].
      rewrite Forall_forall. intros z Hz.
      rewrite insert_desc_perm in Hz.
      apply elem_of_cons in Hz as [->|Hz].
      * unfold desc. lra.
      * rewrite Forall_forall in Hy. by apply Hy.
    + constructor; [by constructor|].
      constructor; [exact Hle|].
      eapply Forall_impl; [exact Hy|]. unfold desc. cbn. intros z Hz. lra.
Qed.

Lemma sort_desc_sorted l : StronglySorted desc (sort_desc l).
Proof.
  induction l as [|x r IH]; cbn; [constructor|].
  by apply insert_desc_sorted.
Qed.

(** Stability: the elements of any one key are in their input order. *)
Lemma insert_desc_filter_key (k : Q) x l :
  filter (fun y => fst y == k) (insert_desc x l)
  = filter (fun y => fst y == k) (x :: l).
Proof.
  induction l as [|y r IH]; cbn; [done|].
  destruct (Qlt_le_dec _ _) as [Hlt|Hle]; [|done].
  rewrite filter_cons, IH, !filter_cons.
  destruct (decide (fst y == k)) as [Ey|Ey], (decide (fst x == k)) as [Ex|Ex];
    try done.
  rewrite Ey, Ex in Hlt. lra.
Qed.

Lemma sort_desc_stable (k : Q) l :
  filter (fun y => fst y == k) (sort_desc l) = filter (fun y => fst y == k) l.
Proof.
  induction l as [|x r IH]; [done|].
  change (sort_desc (x :: r)) with (insert_desc x (sort_desc r)).
  rewrite insert_desc_filter_key, !filter_cons, IH. done.
Qed.
End SortFacts.

(** * The scoring loop on the store *)

Lemma with_scores_at_construction (dog : Dog) cs si me de :
  with_scores (at_construction dog) cs si me de = with_scores dog cs si me de.
Proof. reflexivity. Qed.

Lemma at_construction_with_scores (dog : Dog) cs si me de :
  at_construction (with_scores dog cs si me de) = at_construction dog.
Proof. reflexivity. Qed.

Lemma compatibility_at_construction nd pref (dog : Dog) :
  compatibility nd pref (at_construction dog) = compatibility nd pref dog.
Proof. reflexivity. Qed.

Lemma score_dog_at_construction nd pref (dog : Dog) :
  score_dog nd pref (at_construction dog) = score_dog nd pref dog.
Proof. reflexivity. Qed.

(** The scores depend on the construction-time keys only. *)
Lemma score_dog_ext nd pref (d d' : Dog) :
  at_construction d = at_construction d' ->
  score_dog nd pref d = score_dog nd pref d'.
Proof.
  intros E. rewrite <- (score_dog_at_construction nd pref d), E.
  apply score_dog_at_construction.
Qed.

Lemma score_dog_frame nd pref (d d' : Dog) :
  score_dog nd pref d = Ok d' -> at_construction d' = at_construction d.
Proof.
  unfold score_dog. destruct (compatibility nd pref d); cbn; [|discriminate].
  intros [= <-]. reflexivity.
Qed.

Lemma score_dog_idem nd pref (d d' : Dog) :
  score_dog nd pref d = Ok d' -> score_dog nd pref d' = Ok d'.
Proof.
  intros H. rewrite <- H. apply score_dog_ext. by eapply score_dog_frame.
Qed.

Lemma score_dog_compat nd pref (d d' : Dog) :
  score_dog nd pref d = Ok d' ->
  compatibility nd pref d = Ok (score_of nd pref d)
  /\ compatibility_score d' = Some (score_of nd pref d).
Proof.
  unfold score_dog, score_of. destruct (compatibility nd pref d); cbn; [|discriminate].
  intros [= <-]. done.
Qed.

Section Loop.
Variables (nd : Neighborhood) (pref : string).
Implicit Types (heap : store) (dogs : list nat).

Lemma lookup_total_insert_frame heap (r i : nat) (d : Dog) :
  at_construction d = at_construction (heap !!! r) ->
  at_construction (<[r:=d]> heap !!! i) = at_construction (heap !!! i).
Proof.
  intros E. destruct (decide (r = i)) as [->|Hne].
  - destruct (decide (i < length heap)%nat) as [Hlt|Hge].
    + by rewrite list_lookup_total_insert_eq.
    + rewrite list_insert_ge; [done | lia].
  - by rewrite list_lookup_total_insert_ne.
Qed.

(** A request changes no construction-time key and no length. *)
Lemma score_loop_frame dogs heap heap' res :
  score_loop nd pref dogs heap = (heap', res) ->
  length heap' = length heap
  /\ forall i, at_construction (heap' !!! i) = at_construction (heap !!! i).
Proof.
  revert heap. induction dogs as [|r rest IH]; intros heap; cbn.
  - intros [= <- _]. done.
  - destruct (score_dog nd pref (heap !!! r)) as [d|e] eqn:E.
    + intros H. apply IH in H as [Hlen Hi]. rewrite length_insert in Hlen.
      split; [done|]. intros i. rewrite Hi.
      apply lookup_total_insert_frame. by eapply score_dog_frame.
    + intros [= <- _]. done.
Qed.

(** A dict that already carries its scores is stored back unchanged. *)
Lemma score_loop_fixed dogs heap heap' res (i : nat) :
  score_dog nd pref (heap !!! i) = Ok (heap !!! i) ->
  score_loop nd pref dogs heap = (heap', res) ->
  heap' !! i = heap !! i.
Proof.
  revert heap. induction dogs as [|r rest IH]; intros heap Hfix; cbn.
  - intros [= <- _]. done.
  - destruct (score_dog nd pref (heap !!! r)) as [d|e] eqn:E.
    + intros H. destruct (decide (r = i)) as [->|Hne].
      * rewrite Hfix in E. injection E as <-.
        assert (Hid : <[i:=heap !!! i]> heap = heap).
        { destruct (decide (i < length heap)%nat) as [Hlt|Hge].
          - apply list_insert_id. by apply list_lookup_lookup_total_lt.
          - apply list_insert_ge. lia. }
        rewrite Hid in H. by apply IH in H.
      * assert (Hi : <[r:=d]> heap !!! i = heap !!! i)
          by by rewrite list_lookup_total_insert_ne.
        apply IH in H; [|by rewrite Hi].
        by rewrite H, list_lookup_insert_ne.
    + intros [= <- _]. done.
Qed.

(** After a loop that returns, every dog of the list carries its scores. *)
Lemma score_loop_scored dogs heap heap' :
  score_loop nd pref dogs heap = (heap', Ok tt) ->
  forall r, r ∈ dogs -> (r < length heap)%nat ->
            score_dog nd pref (heap !!! r) = Ok (heap' !!! r).
Proof.
  revert heap. induction dogs as [|r0 rest IH]; intros heap; cbn.
  - intros _ r Hr. by apply elem_of_nil in Hr.
  - destruct (score_dog nd pref (heap !!! r0)) as [d|e] eqn:E; [|discriminate].
    intros H r Hr Hlt.
    assert (Hframe : at_construction (<[r0:=d]> heap !!! r)
                     = at_construction (heap !!! r)).
    { apply lookup_total_insert_frame. by eapply score_dog_frame. }
    destruct (decide (r = r0)) as [->|Hne].
    + assert (Hd : <[r0:=d]> heap !!! r0 = d)
        by by rewrite list_lookup_total_insert_eq.
      pose proof (score_loop_fixed rest _ _ _ r0
                    ltac:(rewrite Hd; by eapply score_dog_idem) H) as Hfix.
      rewrite E. f_equal.
      rewrite list_lookup_insert_eq in Hfix by done.
      symmetry. by apply list_lookup_total_correct.
    + apply elem_of_cons in Hr as [?|Hr]; [done|].
      rewrite <- (IH _ H r Hr) by (by rewrite length_insert).
      symmetry. by apply score_dog_ext.
Qed.

(** The loop returns when every dog of the list can be scored. *)
Lemma score_loop_returns dogs heap :
  (forall r, r ∈ dogs -> exists d, score_dog nd pref (heap !!! r) = Ok d) ->
  exists heap', score_loop nd pref dogs heap = (heap', Ok tt).
Proof.
  revert heap. induction dogs as [|r0 rest IH]; intros heap Hall; cbn.
  - by eexists.
  - destruct (Hall r0) as [d Hd]; [by left|]. rewrite Hd.
    apply IH. intros r Hr. destruct (Hall r) as [d' Hd']; [by right|].
    exists d'. rewrite <- Hd'. apply score_dog_ext.
    apply lookup_total_insert_frame. by eapply score_dog_frame.
Qed.

(** Running the loop again on the store it left changes nothing. *)
Lemma score_loop_idem dogs heap heap' res :
  score_loop nd pref dogs heap = (heap', res) ->
  score_loop nd pref dogs heap' = (heap', res).
Proof.
  revert heap. induction dogs as [|r rest IH]; intros heap; cbn.
  - intros [= <- <-]. done.
  - destruct (score_dog nd pref (heap !!! r)) as [d|e] eqn:E.
    + intros H. pose proof (score_loop_frame _ _ _ _ H) as [Hlen Hfr].
      rewrite length_insert in Hlen.
      assert (Hd : score_dog nd pref (heap' !!! r) = Ok d).
      { rewrite <- E. apply score_dog_ext. rewrite Hfr.
        apply lookup_total_insert_frame. by eapply score_dog_frame. }
      rewrite Hd.
      assert (Hid : <[r:=d]> heap' = heap').
      { destruct (decide (r < length heap)%nat) as [Hlt|Hge].
        - apply list_insert_id.
          rewrite (score_loop_fixed rest (<[r:=d]> heap) heap' res r);
            [by apply list_lookup_insert_eq | | done].
          rewrite list_lookup_total_insert_eq by done.
          by eapply score_dog_idem.
        - apply list_insert_ge. lia. }
      rewrite Hid. by eapply IH.
    + intros [= <- <-]. cbn. by rewrite E.
Qed.
End Loop.

(** * The compatibility score *)

(** C6.  For a profile with a budget limit of at least 50, a dog with a
    protection score in [0,100] and a monthly cost that is not negative,
    every protection need and every protection preference: the three
    match scores are defined and lie in [0,100], and the compatibility
    score that a request stores on the dog is
    0.4 * safety_match + 0.3 * budget_match + 0.3 * preference_match and
    lies in [0,100]. *)
Theorem compatibility_score_weighted_sum
    (neighborhood_data : Neighborhood) (dog : Dog) (pref : ProtectionPref) :
  50 <= budget_limit neighborhood_data ->
  (0 <= protection_score dog <= 100)%Z ->
  0 <= monthly_cost dog ->
  exists (budget_match : Q) (preference_match : Z) (cs : Q) (scored : Dog),
    let safety_match := _calculate_safety_match neighborhood_data dog in
    _calculate_budget_match neighborhood_data dog = Ok budget_match
    /\ _calculate_preference_match (pref_value pref) dog = Ok preference_match
    /\ score_dog neighborhood_data (pref_value pref) dog = Ok scored
    /\ compatibility_score scored = Some cs
    /\ cs == 0.4 * safety_match + 0.3 * budget_match
             + 0.3 * inject_Z preference_match
    /\ 0 <= safety_match <= 100
    /\ 0 <= budget_match <= 100
    /\ 0 <= inject_Z preference_match <= 100
    /\ 0 <= cs <= 100.
Proof.
  intros Hb [Hlo Hhi] _.
  destruct (budget_match_bounds neighborhood_data dog Hb) as (bm & Ebm & Hbm).
  destruct (preference_match_bounds dog pref) as (pm & Epm & Hpm).
  pose proof (safety_match_bounds neighborhood_data dog Hlo Hhi) as Hsm.
  assert (Hpq : 0 <= inject_Z pm <= 100).
  { split.
    - change 0 with (inject_Z 0). rewrite <- Zle_Qle. lia.
    - change 100 with (inject_Z 100). rewrite <- Zle_Qle. lia. }
  exists bm, pm. eexists. eexists. cbn zeta.
  split; [exact Ebm|]. split; [exact Epm|].
  unfold score_dog, compatibility. rewrite Ebm, Epm. cbn.
  split; [reflexivity|]. split; [reflexivity|].
  set (sm := _calculate_safety_match neighborhood_data dog) in *.
  repeat split; lra.
Qed.

Lemma compatibility_score_weighted_sum_witness :
  exists cs scored,
    score_dog sample_neighborhood "Medium" (sample_dogs !!! 0%nat) = Ok scored
    /\ compatibility_score scored = Some cs
    /\ 0 <= cs <= 100.
Proof.
  assert (H1 : 50 <= budget_limit sample_neighborhood)
    by (vm_compute; discriminate).
  assert (H2 : (0 <= protection_score (sample_dogs !!! 0%nat) <= 100)%Z)
    by (vm_compute; split; discriminate).
  assert (H3 : 0 <= monthly_cost (sample_dogs !!! 0%nat))
    by (vm_compute; discriminate).
  destruct (compatibility_score_weighted_sum
              sample_neighborhood (sample_dogs !!! 0%nat) PrefMedium H1 H2 H3)
    as (bm & pm & cs & scored & _ & _ & Hs & Hc & _ & _ & _ & _ & Hr).
  exists cs, scored. exact (conj Hs (conj Hc Hr)).
Defined.

(** * What the builders guarantee *)

Lemma budget_limit_profile (crime_count : nat) (walk_score avg_rent : Q) :
  50 <= budget_limit (neighborhood_profile crime_count walk_score avg_rent).
Proof.
  cbn.
  assert (E : 50 == inject_Z 50 / inject_Z (10 ^ Z.of_nat 0)) by reflexivity.
  rewrite E. apply py_round_lower. rewrite <- E.
  unfold budget_limit_of. apply Q.le_max_l.
Qed.

Lemma protection_score_bounds (size breed age : string) :
  (40 <= _calculate_protection_score size breed age <= 100)%Z.
Proof.
  unfold _calculate_protection_score.
  repeat match goal with
         | |- context [if ?c then _ else _] => destruct c
         end; lia.
Qed.

Lemma process_dog_row_protection (row : AnimalRow) (orgs : list OrgRow) (dog : Dog) :
  process_dog_row row orgs = Ok dog ->
  (40 <= protection_score dog <= 100)%Z.
Proof.
  unfold process_dog_row. destruct (row_name row); cbn; try discriminate.
  intros [= <-]. cbn. apply protection_score_bounds.
Qed.

Lemma process_dog_data_protection (animals_df : list AnimalRow)
    (organizations_df : list OrgRow) :
  Forall (fun dog => (40 <= protection_score dog <= 100)%Z)
         (_process_dog_data animals_df organizations_df).
Proof.
  unfold _process_dog_data.
  destruct (select_sf_dogs animals_df organizations_df) as [sf_dogs sf_orgs].
  induction sf_dogs as [|row rest IH]; cbn; [constructor|].
  destruct (process_dog_row row sf_orgs) eqn:E; [|exact IH].
  constructor; [|exact IH]. by eapply process_dog_row_protection.
Qed.

(** * The ranker *)

Lemma retained_spec (heap : store) (size_pref : string) (r : nat) :
  r ∈ retained heap size_pref
  <-> (r < length heap)%nat
      /\ (size_pref = "Any" \/ size (heap !!! r) = size_pref).
Proof.
  unfold retained. rewrite list_elem_of_filter, elem_of_seq.
  intuition lia.
Qed.

Lemma filter_all {A : Type} (P : A -> Prop) `{!forall x, Decision (P x)}
    (l : list A) :
  (forall x, P x) -> filter P l = l.
Proof.
  intros Hall. induction l as [|x r IH]; [done|].
  rewrite filter_cons_True by done. by rewrite IH.
Qed.

(** The list that the ranker scores is [retained]. *)
Lemma size_filter_retained (heap : store) (size_pref : string) :
  (if negb (size_pref =? "Any")
   then filter (fun dog => size (heap !!! dog) = size_pref) (seq 0 (length heap))
   else seq 0 (length heap))
  = retained heap size_pref.
Proof.
  unfold retained. destruct (String.eqb_spec size_pref "Any") as [E|E]; cbn.
  - symmetry. apply filter_all. intros. by left.
  - apply list_filter_iff. intros r. intuition.
Qed.

Lemma sort_keys_scored (heap : store) (key : nat -> Q) (dogs : list nat) :
  (forall r, r ∈ dogs -> compatibility_score (heap !!! r) = Some (key r)) ->
  sort_keys heap dogs = Ok (map (fun r => (key r, r)) dogs).
Proof.
  induction dogs as [|r rest IH]; intros H; cbn; [done|].
  rewrite (H r) by (by left). cbn.
  rewrite IH by (intros; apply H; by right). done.
Qed.

Section Keyed.
Variable key : nat -> Q.

Lemma keyed_by_decorate (dogs : list nat) :
  keyed_by key (map (fun r => (key r, r)) dogs).
Proof. intros x Hx. apply list_elem_of_fmap in Hx as (r & -> & _). done. Qed.

Lemma keyed_by_perm (l l' : list (Q * nat)) :
  l ≡ₚ l' -> keyed_by key l' -> keyed_by key l.
Proof. intros Hp H x Hx. apply H. by rewrite <- Hp. Qed.

Lemma keyed_by_sorted (l : list (Q * nat)) :
  keyed_by key l -> StronglySorted desc l ->
  StronglySorted (by_score key) (map snd l).
Proof.
  intros Hk. induction 1 as [|x r Hr IH Hx]; cbn; constructor.
  - apply IH. intros y Hy. apply Hk. by right.
  - apply Forall_fmap. rewrite Forall_forall in Hx |- *.
    intros y Hy. specialize (Hx y Hy). unfold desc in Hx. unfold by_score. cbn.
    rewrite <- (Hk x) by (by left). rewrite <- (Hk y) by (by right). done.
Qed.

Lemma keyed_by_filter (k : Q) (l : list (Q * nat)) :
  keyed_by key l ->
  map snd (filter (fun y => fst y == k) l)
  = filter (fun r => key r == k) (map snd l).
Proof.
  induction l as [|x r IH]; intros Hk; [done|].
  cbn [map]. rewrite !filter_cons.
  assert (IH' : map snd (filter (fun y => fst y == k) r)
                = filter (fun r => key r == k) (map snd r))
    by (apply IH; intros y Hy; apply Hk; by right).
  assert (Ex : fst x = key (snd x)) by (apply Hk; by left).
  destruct (decide (fst x == k)) as [E|E], (decide (key (snd x) == k)) as [E'|E'];
    cbn [map]; rewrite ?IH'; try done; rewrite Ex in E; contradiction.
Qed.
End Keyed.

Lemma map_snd_decorate (key : nat -> Q) (dogs : list nat) :
  map snd (map (fun r => (key r, r)) dogs) = dogs.
Proof. induction dogs; cbn; congruence. Qed.

(** What the ranker returns when every retained dog can be scored. *)
Lemma ranker_returns (heap : store) (nd : Neighborhood) (size_pref pref : string) :
  (forall r, r ∈ retained heap size_pref ->
             exists d, score_dog nd pref (heap !!! r) = Ok d) ->
  exists heap',
    _get_personalized_recommendations heap nd size_pref pref
    = (heap',
       Ok (take 5 (map snd (sort_desc
             (map (fun r => (score_of nd pref (heap !!! r), r))
                  (retained heap size_pref))))))
    /\ forall r, r ∈ retained heap size_pref ->
                 score_dog nd pref (heap !!! r) = Ok (heap' !!! r).
Proof.
  intros Hall. unfold _get_personalized_recommendations.
  rewrite size_filter_retained.
  destruct (score_loop_returns nd pref _ heap Hall) as [heap' Hloop].
  rewrite Hloop. exists heap'.
  assert (Hs : forall r, r ∈ retained heap size_pref ->
                         score_dog nd pref (heap !!! r) = Ok (heap' !!! r)).
  { intros r Hr. eapply score_loop_scored; [exact Hloop | exact Hr |].
    by apply retained_spec in Hr as [? _]. }
  split; [|exact Hs].
  rewrite (sort_keys_scored heap' (fun r => score_of nd pref (heap !!! r))).
  - reflexivity.
  - intros r Hr. by apply (score_dog_compat _ _ _ _ (Hs r Hr)).
Qed.

Lemma score_dog_returns (nd : Neighborhood) (pref : ProtectionPref) (dog : Dog) :
  50 <= budget_limit nd ->
  exists d, score_dog nd (pref_value pref) dog = Ok d.
Proof.
  intros Hb. unfold score_dog, compatibility.
  destruct (budget_match_bounds nd dog Hb) as (bm & -> & _).
  destruct (preference_match_bounds dog pref) as (pm & -> & _).
  cbn. by eexists.
Qed.

Lemma score_loop_with_score_dog (nd : Neighborhood) (pref : string)
    (dogs : list nat) (heap : store) :
  score_loop nd pref dogs heap = score_loop_with (score_dog nd pref) dogs heap.
Proof.
  revert heap. induction dogs as [|r rest IH]; intros heap; cbn; [done|].
  destruct (score_dog nd pref (heap !!! r)); [apply IH | done].
Qed.

(** The ranker of the model is the open ranker at the exact scores. *)
Lemma ranker_with_score_dog (heap : store) (nd : Neighborhood)
    (size_pref pref : string) :
  _get_personalized_recommendations heap nd size_pref pref
  = ranker_with (score_dog nd pref) heap size_pref.
Proof.
  unfold _get_personalized_recommendations, ranker_with.
  by rewrite score_loop_with_score_dog.
Qed.

(** The loop on a list without repetition: every dict of the list is
    replaced by what [scorer] makes of the dict that was there before the
    loop, and no other dict is touched. *)
Lemma score_loop_with_returns (scorer : Dog -> result Dog)
    (dogs : list nat) (heap : store) :
  NoDup dogs ->
  (forall r, r ∈ dogs -> (r < length heap)%nat) ->
  (forall r, r ∈ dogs -> exists d, scorer (heap !!! r) = Ok d) ->
  exists heap',
    score_loop_with scorer dogs heap = (heap', Ok tt)
    /\ length heap' = length heap
    /\ (forall r, r ∈ dogs -> scorer (heap !!! r) = Ok (heap' !!! r))
    /\ (forall i, i ∉ dogs -> heap' !! i = heap !! i).
Proof.
  revert heap. induction dogs as [|r0 rest IH]; intros heap Hnd Hlt Hall; cbn.
  - exists heap. split; [done|]. split; [done|]. split; [|done].
    by intros r ?%elem_of_nil.
  - apply NoDup_cons in Hnd as [Hr0 Hnd].
    destruct (Hall r0) as [d0 Hd0]; [by left|]. rewrite Hd0.
    assert (Hsame : forall r, r ∈ rest -> <[r0:=d0]> heap !!! r = heap !!! r).
    { intros r Hr. apply list_lookup_total_insert_ne. by intros ->. }
    destruct (IH (<[r0:=d0]> heap) Hnd) as (heap' & Hloop & Hlen & Hscored & Hother).
    { intros r Hr. rewrite length_insert. apply Hlt. by right. }
    { intros r Hr. rewrite (Hsame r Hr). apply Hall. by right. }
    exists heap'. split; [exact Hloop|]. rewrite length_insert in Hlen.
    split; [exact Hlen|]. split.
    + intros r [->|Hr]%elem_of_cons.
      * rewrite Hd0. f_equal. symmetry. apply list_lookup_total_correct.
        rewrite (Hother r0 Hr0). apply list_lookup_insert_eq. apply Hlt. by left.
      * rewrite <- (Hsame r Hr). by apply Hscored.
    + intros i [Hne Hi]%not_elem_of_cons.
      rewrite (Hother i Hi). by apply list_lookup_insert_ne.
Qed.

(** C7.  For every catalog, every size preference and every loop body
    that gives each retained dog a compatibility score (the scores of
    the code for a protection preference of the dropdown, in whatever
    arithmetic they are computed), the ranker returns, and its result is
    the first 5 elements of a list [sorted] such that: a dog is in
    [sorted] if and only if it is in the catalog and the size preference
    is 'Any' or equals its size; [sorted] is a rearrangement of the
    retained dogs; the key of a dog is the compatibility score that the
    request stored on it; [sorted] is descending by key; dogs of equal
    key are in their catalog order; and the result has 5 elements, or
    all retained dogs when fewer than 5 are retained. *)
Theorem ranker_filter_stable_sort_top5
    (scorer : Dog -> result Dog) (heap : store) (size_pref : string) :
  (forall r, r ∈ retained heap size_pref ->
             exists d k, scorer (heap !!! r) = Ok d
                         /\ compatibility_score d = Some k) ->
  let key := stored_key scorer heap in
  exists (heap' : store) (sorted : list nat),
    ranker_with scorer heap size_pref = (heap', Ok (take 5 sorted))
    /\ (forall r, r ∈ sorted <->
                  (r < length heap)%nat
                  /\ (size_pref = "Any" \/ size (heap !!! r) = size_pref))
    /\ sorted ≡ₚ retained heap size_pref
    /\ (forall r, r ∈ sorted ->
                  scorer (heap !!! r) = Ok (heap' !!! r)
                  /\ compatibility_score (heap' !!! r) = Some (key r))
    /\ StronglySorted (by_score key) sorted
    /\ (forall k, filter (fun r => key r == k) sorted
                  = filter (fun r => key r == k) (retained heap size_pref))
    /\ length (take 5 sorted) = Nat.min 5 (length (retained heap size_pref)).
Proof.
  intros Hall key.
  destruct (score_loop_with_returns scorer (retained heap size_pref) heap)
    as (heap' & Hloop & _ & Hscored & _).
  { unfold retained. apply NoDup_filter, NoDup_seq. }
  { intros r Hr. by apply retained_spec in Hr as [? _]. }
  { intros r Hr. destruct (Hall r Hr) as (d & _ & Hd & _). by exists d. }
  assert (Hkey : forall r, r ∈ retained heap size_pref ->
                           compatibility_score (heap' !!! r) = Some (key r)).
  { intros r Hr. destruct (Hall r Hr) as (d & k & Hd & Hk).
    pose proof (Hscored r Hr) as Hs. rewrite Hd in Hs. injection Hs as <-.
    unfold key, stored_key. by rewrite Hd, Hk. }
  set (keyed := map (fun r => (key r, r)) (retained heap size_pref)).
  assert (Hperm : map snd (sort_desc keyed) ≡ₚ retained heap size_pref).
  { rewrite sort_desc_perm. unfold keyed. by rewrite map_snd_decorate. }
  assert (Hk : keyed_by key (sort_desc keyed)).
  { eapply keyed_by_perm; [apply sort_desc_perm | apply keyed_by_decorate]. }
  exists heap', (map snd (sort_desc keyed)). split.
  { unfold ranker_with. rewrite size_filter_retained, Hloop.
    by rewrite (sort_keys_scored heap' key). }
  split; [|split; [exact Hperm|split; [|split; [|split]]]].
  - intros r. rewrite Hperm. apply retained_spec.
  - intros r Hr. rewrite Hperm in Hr. split; [by apply Hscored | by apply Hkey].
  - apply keyed_by_sorted; [exact Hk | apply sort_desc_sorted].
  - intros k. rewrite <- keyed_by_filter by exact Hk.
    rewrite sort_desc_stable.
    rewrite (keyed_by_filter key) by apply keyed_by_decorate.
    unfold keyed. by rewrite map_snd_decorate.
  - rewrite length_take. by rewrite Hperm.
Qed.

Lemma ranker_filter_stable_sort_top5_witness :
  exists (heap' : store) (sorted : list nat),
    _get_personalized_recommendations sample_dogs sample_neighborhood
      "Large" "Medium" = (heap', Ok (take 5 sorted))
    /\ sorted ≡ₚ [0; 2]%nat
    /\ length (take 5 sorted) = 2%nat.
Proof.
  rewrite ranker_with_score_dog.
  destruct (ranker_filter_stable_sort_top5
              (score_dog sample_neighborhood "Medium") sample_dogs "Large")
    as (heap' & sorted & Hret & _ & Hperm & _ & _ & _ & Hlen).
  - intros r Hr.
    assert (Hcases : r = 0%nat \/ r = 2%nat).
    { vm_compute in Hr. apply elem_of_cons in Hr as [->|Hr]; [by left|].
      apply list_elem_of_singleton in Hr as ->. by right. }
    destruct Hcases as [-> | ->]; eexists; eexists; split; reflexivity.
  - exists heap', sorted. split; [exact Hret|].
    split; [exact Hperm | exact Hlen].
Defined.

(** * Requests and the shared catalog *)

Lemma retained_frame (heap heap' : store) (size_pref : string) :
  length heap' = length heap ->
  (forall i, at_construction (heap' !!! i) = at_construction (heap !!! i)) ->
  retained heap' size_pref = retained heap size_pref.
Proof.
  intros Hlen Hfr. unfold retained. rewrite Hlen.
  apply list_filter_iff. intros r.
  change (size (heap' !!! r)) with (size (at_construction (heap' !!! r))).
  rewrite Hfr. done.
Qed.

(** A request leaves every construction-time key of every dict of the
    catalog, and the length of the catalog, as they were. *)
Lemma request_frame (heap heap' : store) (nd : Neighborhood)
    (size_pref pref : string) (res : result (list nat)) :
  _get_personalized_recommendations heap nd size_pref pref = (heap', res) ->
  length heap' = length heap
  /\ forall i, at_construction (heap' !!! i) = at_construction (heap !!! i).
Proof.
  unfold _get_personalized_recommendations. rewrite size_filter_retained.
  destruct (score_loop _ _ _ _) as [h [[]|e]] eqn:E; intros [= <- _];
    by eapply score_loop_frame.
Qed.

Lemma request_preserves_construction_fields (heap : store) (nd : Neighborhood)
    (size_pref pref : string) :
  map at_construction (fst (_get_personalized_recommendations heap nd size_pref pref))
  = map at_construction heap.
Proof.
  destruct (_get_personalized_recommendations _ _ _ _) as [heap' res] eqn:E.
  apply request_frame in E as [Hlen Hfr]. cbn.
  apply list_eq. intros i. rewrite !list_lookup_fmap.
  destruct (decide (i < length heap)%nat) as [Hlt|Hge].
  - rewrite (list_lookup_lookup_total_lt heap' i) by lia.
    rewrite (list_lookup_lookup_total_lt heap i) by lia.
    cbn. by rewrite Hfr.
  - rewrite !lookup_ge_None_2 by lia. done.
Qed.

(** Running the ranker again on the store it left returns the same
    addresses and leaves the same store. *)
Lemma ranker_idem (heap heap' : store) (nd : Neighborhood)
    (size_pref pref : string) (res : result (list nat)) :
  _get_personalized_recommendations heap nd size_pref pref = (heap', res) ->
  _get_personalized_recommendations heap' nd size_pref pref = (heap', res).
Proof.
  intros H. pose proof (request_frame _ _ _ _ _ _ H) as [Hlen Hfr].
  unfold _get_personalized_recommendations in H |- *.
  rewrite size_filter_retained in H.
  rewrite size_filter_retained, (retained_frame heap heap') by done.
  destruct (score_loop nd pref (retained heap size_pref) heap) as [h r] eqn:E.
  assert (h = heap') as -> by (destruct r as [[]|]; congruence).
  apply score_loop_idem in E. rewrite E. exact H.
Qed.

(** C9.  A request repeated with the same neighborhood, size preference
    and protection preference on the catalog as the first request left
    it gives the same outcome: the ranker returns the same dogs in the
    same order and leaves the same store, so the dogs carry the same
    scores, and the entry point hands over the same page (the same
    ranked dogs with the same scores and the same impact metrics) or
    raises the same exception. *)
Theorem repeated_request_same_result
    (real_data : RealData) (n_clicks : Z) (neighborhood : option string)
    (neighborhood_data : Neighborhood) (size_pref protection_pref : string) :
  let first := _get_personalized_recommendations (dogs real_data)
                 neighborhood_data size_pref protection_pref in
  let second := _get_personalized_recommendations (fst first)
                  neighborhood_data size_pref protection_pref in
  let first_page := update_recommendations real_data n_clicks neighborhood
                      size_pref protection_pref in
  second = first
  /\ ranked_dogs second = ranked_dogs first
  /\ impact_of neighborhood_data second = impact_of neighborhood_data first
  /\ update_recommendations (fst first_page) n_clicks neighborhood
       size_pref protection_pref = first_page.
Proof.
  cbn zeta.
  assert (Hidem : forall nd,
    _get_personalized_recommendations
      (fst (_get_personalized_recommendations (dogs real_data) nd
              size_pref protection_pref)) nd size_pref protection_pref
    = _get_personalized_recommendations (dogs real_data) nd
        size_pref protection_pref).
  { intros nd.
    destruct (_get_personalized_recommendations (dogs real_data) nd _ _)
      as [h r] eqn:E.
    cbn. by eapply ranker_idem. }
  split; [apply Hidem|]. split; [by rewrite Hidem|]. split; [by rewrite Hidem|].
  unfold update_recommendations.
  destruct ((n_clicks =? 0)%Z || not_neighborhood neighborhood) eqn:Egate.
  - reflexivity.
  - destruct (dict_lookup (neighborhoods real_data) (default "" neighborhood))
      as [nd|] eqn:Enb.
    + specialize (Hidem nd).
      destruct (_get_personalized_recommendations (dogs real_data) nd _ _)
        as [h r] eqn:E.
      cbn in Hidem |- *. rewrite Enb, Hidem. done.
    + cbn. by rewrite Enb.
Qed.

(** C8.  For a neighborhood name that is not in the catalog the entry
    point does not raise: it returns the selection prompt or the
    not-found page, and for a submitted request (the button was clicked
    and the name is not empty) it returns the not-found page.  When the
    size filter retains no dog, the ranker returns the empty list and
    leaves the store as it is, the impact summarizer returns the empty
    record, and a submitted request returns the no-match page; nothing
    raises, whatever the protection preference. *)
Theorem entry_point_not_found_and_empty
    (real_data : RealData) (n_clicks : Z) (neighborhood : option string)
    (name size_pref protection_pref : string) (neighborhood_data : Neighborhood) :
  (dict_lookup (neighborhoods real_data) (default "" neighborhood) = None ->
   exists page,
     update_recommendations real_data n_clicks neighborhood size_pref protection_pref
     = (real_data, Ok page)
     /\ (page = SelectPrompt \/ page = NotFound (default "" neighborhood)))
  /\ (n_clicks <> 0%Z -> name <> "" ->
      dict_lookup (neighborhoods real_data) name = None ->
      update_recommendations real_data n_clicks (Some name) size_pref protection_pref
      = (real_data, Ok (NotFound name)))
  /\ (retained (dogs real_data) size_pref = [] ->
      _get_personalized_recommendations (dogs real_data) neighborhood_data
        size_pref protection_pref = (dogs real_data, Ok [])
      /\ _calculate_impact_metrics (dogs real_data) neighborhood_data [] = Ok None)
  /\ (n_clicks <> 0%Z -> name <> "" ->
      dict_lookup (neighborhoods real_data) name = Some neighborhood_data ->
      retained (dogs real_data) size_pref = [] ->
      update_recommendations real_data n_clicks (Some name) size_pref protection_pref
      = (real_data, Ok NoMatches)).
Proof.
  assert (Hgate : n_clicks <> 0%Z -> name <> "" ->
                  (n_clicks =? 0)%Z || not_neighborhood (Some name) = false).
  { intros Hn Hname. apply orb_false_iff. split.
    - by apply Z.eqb_neq.
    - cbn. by apply String.eqb_neq. }
  assert (Hempty : retained (dogs real_data) size_pref = [] ->
                   _get_personalized_recommendations (dogs real_data)
                     neighborhood_data size_pref protection_pref
                   = (dogs real_data, Ok [])).
  { intros Hr. unfold _get_personalized_recommendations.
    rewrite size_filter_retained, Hr. reflexivity. }
  split; [|split; [|split]].
  - intros Hnb. unfold update_recommendations.
    destruct ((n_clicks =? 0)%Z || not_neighborhood neighborhood).
    + exists SelectPrompt. split; [reflexivity | by left].
    + rewrite Hnb. eexists. split; [reflexivity | by right].
  - intros Hn Hname Hnb. unfold update_recommendations.
    rewrite (Hgate Hn Hname). cbn. by rewrite Hnb.
  - intros Hr. split; [by apply Hempty | reflexivity].
  - intros Hn Hname Hnb Hr. unfold update_recommendations.
    rewrite (Hgate Hn Hname). cbn. rewrite Hnb, (Hempty Hr). cbn.
    by destruct real_data.
Qed.

Lemma entry_point_not_found_and_empty_witness :
  update_recommendations sample_data 1 (Some "Nowhere") "Any" "Medium"
  = (sample_data, Ok (NotFound "Nowhere"))
  /\ update_recommendations sample_data 1 (Some "Mission") "Medium" "Medium"
     = (sample_data, Ok NoMatches).
Proof.
  destruct (entry_point_not_found_and_empty sample_data 1 None "Nowhere"
              "Any" "Medium" sample_neighborhood) as (_ & Hnf & _ & _).
  destruct (entry_point_not_found_and_empty sample_data 1 None "Mission"
              "Medium" "Medium" sample_neighborhood) as (_ & _ & _ & Hem).
  split.
  - apply Hnf; [discriminate | discriminate | reflexivity].
  - apply Hem; [discriminate | discriminate | reflexivity | reflexivity].
Defined.

(** C1, the code at the failing input.  After one request on the sample
    catalog the first dict of the catalog itself carries a compatibility
    score, which it did not have when it was built: the list is copied,
    its dicts are not.  Only the construction-time keys are unchanged. *)
Theorem request_mutates_catalog :
  let heap' := fst (_get_personalized_recommendations sample_dogs
                      sample_neighborhood "Any" "Medium") in
  compatibility_score (sample_dogs !!! 0%nat) = None
  /\ (exists cs, compatibility_score (heap' !!! 0%nat) = Some cs /\ cs == 67.3)
  /\ heap' <> sample_dogs
  /\ map at_construction heap' = map at_construction sample_dogs.
Proof.
  cbn zeta. split; [reflexivity|]. split; [|split].
  - eexists. split; reflexivity.
  - intros H. apply (f_equal (fun h => compatibility_score (h !!! 0%nat))) in H.
    vm_compute in H. discriminate.
  - apply request_preserves_construction_fields.
Qed.

(** * The impact summary *)

Lemma sort_keys_snd (heap : store) (dogs : list nat) (keyed : list (Q * nat)) :
  sort_keys heap dogs = Ok keyed -> map snd keyed = dogs.
Proof.
  revert keyed. induction dogs as [|r rest IH]; intros keyed; cbn.
  - by intros [= <-].
  - destruct (compatibility_score (heap !!! r)); cbn; [|discriminate].
    destruct (sort_keys heap rest); cbn; [|discriminate].
    intros [= <-]. cbn. f_equal. by apply IH.
Qed.

(** Every dog that the ranker returns was retained and scored by it. *)
Lemma ranked_dog_scored (heap heap' : store) (nd : Neighborhood)
    (size_pref pref : string) (recs : list nat) (r : nat) :
  _get_personalized_recommendations heap nd size_pref pref = (heap', Ok recs) ->
  r ∈ recs ->
  r ∈ retained heap size_pref
  /\ score_dog nd pref (heap !!! r) = Ok (heap' !!! r).
Proof.
  unfold _get_personalized_recommendations. rewrite size_filter_retained.
  destruct (score_loop _ _ _ _) as [h [[]|e]] eqn:E; [|discriminate].
  destruct (sort_keys h _) as [keyed|e] eqn:Ek; cbn; [|discriminate].
  intros [= <- <-] Hr.
  apply subseteq_take in Hr. rewrite sort_desc_perm in Hr.
  rewrite (sort_keys_snd _ _ _ Ek) in Hr.
  split; [exact Hr|].
  eapply score_loop_scored; [exact E | exact Hr |].
  by apply retained_spec in Hr as [? _].
Qed.

Lemma score_dog_benefits (nd : Neighborhood) (pref : string) (d d' : Dog) :
  score_dog nd pref d = Ok d' ->
  protection_score d' = protection_score d
  /\ safety_improvement d' = Some (Qmin 30 (inject_Z (protection_score d) * 0.3))
  /\ monthly_exercise d' = Some (60 + inject_Z (protection_score d) * 0.5)
  /\ exists de, deterrent_effect d' = Some de.
Proof.
  unfold score_dog. destruct (compatibility nd pref d); cbn; [|discriminate].
  intros [= <-]. cbn. eauto.
Qed.

(** C10.  The protection score of the profile builder is at least 40,
    for every size, breed and age, and so is the protection score of
    every dog that [_process_dog_data] produces.  On a catalog with that
    property a request that returns keeps the property, every returned
    dog carries monthly_exercise = 60 + 0.5 * protection_score >= 80, and
    for a non-empty result the impact record exists and its
    community_connections is "High". *)
Theorem community_connections_always_high
    (size breed age : string)
    (animals_df : list AnimalRow) (organizations_df : list OrgRow)
    (heap heap' : store) (neighborhood_data : Neighborhood)
    (size_pref protection_pref : string) (recs : list nat) :
  (40 <= _calculate_protection_score size breed age)%Z
  /\ Forall (fun dog => (40 <= protection_score dog)%Z)
            (_process_dog_data animals_df organizations_df)
  /\ (Forall (fun dog => (40 <= protection_score dog)%Z) heap ->
      _get_personalized_recommendations heap neighborhood_data
        size_pref protection_pref = (heap', Ok recs) ->
      Forall (fun dog => (40 <= protection_score dog)%Z) heap'
      /\ (forall r, r ∈ recs ->
            exists me, monthly_exercise (heap' !!! r) = Some me
                       /\ me == 60 + 0.5 * inject_Z (protection_score (heap' !!! r))
                       /\ 80 <= me /\ 75 < me)
      /\ (recs <> [] ->
          exists m, _calculate_impact_metrics heap' neighborhood_data recs
                    = Ok (Some m)
                    /\ community_connections m = "High")).
Proof.
  split; [apply protection_score_bounds|]. split.
  { eapply Forall_impl; [apply process_dog_data_protection|].
    cbn. intros d Hd. lia. }
  intros Hinv Hreq.
  pose proof (request_frame _ _ _ _ _ _ Hreq) as [Hlen Hfr].
  assert (Hps : forall i, protection_score (heap' !!! i) = protection_score (heap !!! i)).
  { intros i. change (protection_score (heap' !!! i))
      with (protection_score (at_construction (heap' !!! i))).
    by rewrite Hfr. }
  assert (Hinv' : Forall (fun dog => (40 <= protection_score dog)%Z) heap').
  { refine (Forall_lookup_total_2 _ _ _). intros i Hi. rewrite Hps.
    apply Forall_lookup_total_1; [exact Hinv | lia]. }
  assert (Hex : forall r, r ∈ recs ->
            exists me, monthly_exercise (heap' !!! r) = Some me
                       /\ me == 60 + 0.5 * inject_Z (protection_score (heap' !!! r))
                       /\ 80 <= me /\ 75 < me).
  { intros r Hr.
    destruct (ranked_dog_scored _ _ _ _ _ _ _ Hreq Hr) as [Hret Hs].
    apply score_dog_benefits in Hs as (Hp & _ & Hme & _).
    eexists. split; [exact Hme|]. rewrite Hp.
    assert (Hq : 40 <= inject_Z (protection_score (heap !!! r))).
    { change 40 with (inject_Z 40). rewrite <- Zle_Qle.
      apply Forall_lookup_total_1; [exact Hinv|].
      by apply retained_spec in Hret as [? _]. }
    repeat split; lra. }
  split; [exact Hinv'|]. split; [exact Hex|].
  intros Hne. destruct recs as [|top rest]; [done|].
  destruct (ranked_dog_scored _ _ _ _ _ _ top Hreq ltac:(by left)) as [_ Hs].
  destruct (Hex top ltac:(by left)) as (me & Hme & _ & _ & H75).
  apply score_dog_benefits in Hs as (_ & Hsi & _ & de & Hde).
  unfold _calculate_impact_metrics. rewrite Hsi, Hme, Hde. cbn.
  eexists. split; [reflexivity|]. cbn.
  destruct (Qlt_le_dec 75 me); [reflexivity | lra].
Qed.

Lemma community_connections_always_high_witness :
  exists m,
    _calculate_impact_metrics
      (fst (_get_personalized_recommendations sample_dogs sample_neighborhood
              "Any" "Medium"))
      sample_neighborhood [1; 0; 2]%nat = Ok (Some m)
    /\ community_connections m = "High".
Proof.
  destruct (community_connections_always_high "Large" "Boxer" "Adult" [] []
              sample_dogs
              (fst (_get_personalized_recommendations sample_dogs
                      sample_neighborhood "Any" "Medium"))
              sample_neighborhood "Any" "Medium" [1; 0; 2]%nat)
    as (_ & _ & H).
  apply H.
  - unfold sample_dogs, sample_data, load_real_data. cbn [dogs].
    eapply Forall_impl; [apply process_dog_data_protection|].
    cbn. intros d Hd. lia.
  - reflexivity.
  - discriminate.
Defined.

(** * More on the neighborhood profile builder *)

Lemma tenths_le (a b : Z) :
  (a <= b)%Z -> inject_Z a / inject_Z (10 ^ Z.of_nat 1) <= inject_Z b / inject_Z (10 ^ Z.of_nat 1).
Proof.
  intros H. rewrite Zle_Qle in H. change (inject_Z (10 ^ Z.of_nat 1)) with 10.
  apply Qle_shift_div_l; [reflexivity|].
  assert (E : inject_Z a / 10 * 10 == inject_Z a) by field. rewrite E. exact H.
Qed.

Lemma safety_score_of_cases (crime_count : nat) :
  ((crime_count <= 200)%nat ->
   safety_score_of crime_count == 100 - inject_Z (Z.of_nat crime_count) / 2)
  /\ ((200 <= crime_count)%nat -> safety_score_of crime_count == 0).
Proof.
  split; intros H; rewrite safety_score_of_tenths.
  - rewrite Z.max_r by lia. change (inject_Z (10 ^ Z.of_nat 1)) with 10.
    unfold Z.sub. rewrite inject_Z_plus, inject_Z_opp, inject_Z_mult.
    change (inject_Z 1000) with 1000. change (inject_Z 5) with 5. field.
  - rewrite Z.max_l by lia. reflexivity.
Qed.

(** X1.  The safety score is in [0,100] for every crime count, also as
    stored; it is 100 - crime_count/2 up to 200 crimes and 0 from 200
    crimes on; and it does not grow with the crime count. *)
Theorem safety_score_range_monotone
    (crime_count crime_count' : nat) (walk_score avg_rent : Q) :
  0 <= safety_score_of crime_count <= 100
  /\ 0 <= safety_score (neighborhood_profile crime_count walk_score avg_rent) <= 100
  /\ ((crime_count <= 200)%nat ->
      safety_score_of crime_count == 100 - inject_Z (Z.of_nat crime_count) / 2)
  /\ ((200 <= crime_count)%nat -> safety_score_of crime_count == 0)
  /\ ((crime_count <= crime_count')%nat ->
      safety_score_of crime_count' <= safety_score_of crime_count).
Proof.
  assert (Hrange : forall c, 0 <= safety_score_of c <= 100).
  { intros c. rewrite (safety_score_of_tenths c). split.
    - assert (E : 0 == inject_Z 0 / inject_Z (10 ^ Z.of_nat 1)) by reflexivity.
      rewrite E. apply tenths_le. lia.
    - assert (E : 100 == inject_Z 1000 / inject_Z (10 ^ Z.of_nat 1)) by reflexivity.
      rewrite E. apply tenths_le. lia. }
  split; [apply Hrange|]. split; [|split; [|split]].
  - rewrite safety_score_stored_exact. apply Hrange.
  - apply safety_score_of_cases.
  - apply safety_score_of_cases.
  - intros H. rewrite !safety_score_of_tenths. apply tenths_le. lia.
Qed.

Lemma safety_score_range_monotone_witness :
  safety_score_of 120 == 40 /\ safety_score_of 250 == 0
  /\ safety_score_of 250 <= safety_score_of 120.
Proof.
  destruct (safety_score_range_monotone 120 250 10 2000) as (_ & _ & H1 & _ & H3).
  destruct (safety_score_range_monotone 250 250 10 2000) as (_ & _ & _ & H2 & _).
  split; [|split].
  - rewrite H1 by lia. reflexivity.
  - apply H2. lia.
  - apply H3. lia.
Defined.

Lemma round_half_even_near (x : Q) :
  inject_Z (round_half_even x) - (1 # 2) <= x
  /\ x <= inject_Z (round_half_even x) + (1 # 2).
Proof.
  pose proof (Qfloor_le x) as Hlo. pose proof (Qlt_floor x) as Hhi.
  rewrite inject_Z_plus in Hhi. change (inject_Z 1) with 1 in Hhi.
  unfold round_half_even.
  destruct (Qcompare _ _) eqn:E.
  - apply Qeq_alt in E. destruct (Z.even _).
    + lra.
    + rewrite inject_Z_plus. change (inject_Z 1) with 1. lra.
  - apply Qlt_alt in E. lra.
  - apply Qgt_alt in E. rewrite inject_Z_plus. change (inject_Z 1) with 1. lra.
Qed.

Lemma round_half_even_comp (x y : Q) :
  x == y -> round_half_even x = round_half_even y.
Proof.
  intros H. unfold round_half_even.
  assert (Ef : Qfloor x = Qfloor y) by (by apply Qfloor_comp).
  rewrite Ef. cbv zeta.
  assert (Ec : Qcompare (x - inject_Z (Qfloor y)) (1 # 2)
               = Qcompare (y - inject_Z (Qfloor y)) (1 # 2)).
  { apply Qcompare_comp; [rewrite H|]; reflexivity. }
  rewrite Ec. reflexivity.
Qed.

Lemma py_round_0 (x : Q) : py_round x 0 == inject_Z (round_half_even x).
Proof.
  unfold py_round. change (inject_Z (10 ^ Z.of_nat 0)) with 1.
  rewrite (round_half_even_comp (x * 1) x) by ring. field.
Qed.

(** X2.  The stored budget limit is a whole number of at least 50, within
    one half of max(50, 5% of the average rent), and it is exactly 50 for
    an average rent of at most 1000. *)
Theorem budget_limit_floor_and_rounding
    (crime_count : nat) (walk_score avg_rent : Q) :
  let stored := budget_limit (neighborhood_profile crime_count walk_score avg_rent) in
  50 <= stored
  /\ (exists z : Z, stored == inject_Z z)
  /\ stored - (1 # 2) <= Qmax 50 (avg_rent * 0.05) <= stored + (1 # 2)
  /\ (avg_rent <= 1000 -> stored == 50).
Proof.
  cbn zeta. cbn [budget_limit neighborhood_profile].
  split; [apply (budget_limit_profile crime_count walk_score avg_rent)|]. split; [|split].
  - eexists. apply py_round_0.
  - rewrite py_round_0. apply round_half_even_near.
  - intros H. rewrite py_round_0. unfold budget_limit_of.
    rewrite (round_half_even_Z _ 50); [reflexivity|].
    rewrite Q.max_l; [reflexivity | lra].
Qed.

Lemma budget_limit_floor_and_rounding_witness :
  budget_limit (neighborhood_profile 0 10 800) == 50.
Proof.
  destruct (budget_limit_floor_and_rounding 0 10 800) as (_ & _ & _ & H).
  apply H. vm_compute. discriminate.
Defined.

Lemma unique_spec (l : list string) (x : string) : x ∈ unique l <-> x ∈ l.
Proof.
  induction l as [|n r IH]; cbn; [done|].
  rewrite !elem_of_cons, list_elem_of_filter, IH.
  destruct (decide (x = n)); intuition.
Qed.

Lemma unique_NoDup (l : list string) : NoDup (unique l).
Proof.
  induction l as [|n r IH]; cbn; constructor.
  - rewrite list_elem_of_filter. intros [H _]. by apply H.
  - by apply NoDup_filter.
Qed.

Lemma dict_lookup_map {V : Type} (f : string -> V) (keys : list string) (k : string) :
  dict_lookup (map (fun n => (n, f n)) keys) k
  = if decide (k ∈ keys) then Some (f k) else None.
Proof.
  induction keys as [|n r IH]; cbn; [done|].
  destruct (String.eqb_spec n k) as [->|Hne].
  - rewrite decide_True; [done | by left].
  - rewrite IH. destruct (decide (k ∈ r)) as [Hin|Hin].
    + rewrite decide_True; [done | by right].
    + rewrite decide_False; [done|]. rewrite elem_of_cons. intros [->|?]; done.
Qed.

Lemma map_fst_tagged {V : Type} (f : string -> V) (keys : list string) :
  map fst (map (fun n => (n, f n)) keys) = keys.
Proof. induction keys; cbn; congruence. Qed.

Lemma rent_rows_nonempty (rental_df : list RentalRow) (name : string) :
  name ∈ map rent_analysis_neighborhood rental_df ->
  (0 <? length (filter (fun r => rent_analysis_neighborhood r = name) rental_df))%nat
  = true.
Proof.
  intros H. apply list_elem_of_fmap in H as (row & -> & Hrow).
  apply Nat.ltb_lt.
  assert (Hin : row ∈ filter (fun r => rent_analysis_neighborhood r
                                       = rent_analysis_neighborhood row) rental_df)
    by (by apply list_elem_of_filter).
  destruct (filter _ rental_df); [by apply elem_of_nil in Hin | cbn; lia].
Qed.

(** The profile stored for a name of the rental table. *)
Lemma neighborhood_lookup_profile (rental_df : list RentalRow)
    (crime_df : list CrimeRow) (walkability_df : list WalkRow) (name : string) :
  dict_lookup (_process_neighborhood_data rental_df crime_df walkability_df) name
  = if decide (name ∈ map rent_analysis_neighborhood rental_df)
    then Some (neighborhood_profile
                 (crimes_of crime_df name)
                 (match walk_rows_of walkability_df name with
                  | [] => 10
                  | col => mean col
                  end)
                 (mean (rent_rows_of rental_df name)))
    else None.
Proof.
  unfold _process_neighborhood_data. rewrite dict_lookup_map.
  destruct (decide (name ∈ unique _)) as [Hin|Hin];
    rewrite unique_spec in Hin.
  - rewrite decide_True by done. rewrite (rent_rows_nonempty _ _ Hin).
    f_equal. unfold crimes_of, rent_rows_of, walk_rows_of.
    destruct (filter _ walkability_df); reflexivity.
  - by rewrite decide_False.
Qed.

(** X3.  The dict of neighborhoods has one key per distinct name of the
    rental table and no other key: a lookup of a name that is not in the
    rental table finds nothing, and a lookup of a name of the rental
    table finds a profile whose crime count is the number of crime rows
    of that name and whose average rent is the rounded mean of its
    rental rows (the default rent of 3000 is never used). *)
Theorem neighborhood_dict_one_profile_per_rental_name
    (rental_df : list RentalRow) (crime_df : list CrimeRow)
    (walkability_df : list WalkRow) (name : string) :
  let neighborhoods := _process_neighborhood_data rental_df crime_df walkability_df in
  NoDup (map fst neighborhoods)
  /\ (name ∈ map fst neighborhoods
      <-> name ∈ map rent_analysis_neighborhood rental_df)
  /\ (name ∉ map rent_analysis_neighborhood rental_df ->
      dict_lookup neighborhoods name = None)
  /\ (name ∈ map rent_analysis_neighborhood rental_df ->
      exists nd, dict_lookup neighborhoods name = Some nd
                 /\ crime_count nd = crimes_of crime_df name
                 /\ avg_rent nd == py_round (mean (rent_rows_of rental_df name)) 0).
Proof.
  cbn zeta.
  assert (Hkeys : map fst (_process_neighborhood_data rental_df crime_df walkability_df)
                  = unique (map rent_analysis_neighborhood rental_df)).
  { unfold _process_neighborhood_data. apply map_fst_tagged. }
  split; [rewrite Hkeys; apply unique_NoDup|].
  split; [rewrite Hkeys; apply unique_spec|].
  rewrite neighborhood_lookup_profile. split.
  - intros H. by rewrite decide_False.
  - intros H. rewrite decide_True by done. eexists. split; [reflexivity|].
    split; reflexivity.
Qed.

Lemma neighborhood_dict_one_profile_per_rental_name_witness :
  (exists nd, dict_lookup (neighborhoods sample_data) "Mission" = Some nd
              /\ crime_count nd = 1%nat)
  /\ dict_lookup (neighborhoods sample_data) "Nowhere" = None.
Proof.
  split.
  - destruct (neighborhood_dict_one_profile_per_rental_name
                [ {| rent_analysis_neighborhood := "Mission"; rent_avg := 2000 |} ]
                [ {| crime_analysis_neighborhood := "Mission" |} ]
                [ {| walk_neighborhood_name := "Mission"; NatWalkInd := 15 |} ]
                "Mission") as (_ & _ & _ & H).
    destruct H as (nd & Hnd & Hc & _); [by left|].
    exists nd. split; [exact Hnd | exact Hc].
  - destruct (neighborhood_dict_one_profile_per_rental_name
                [ {| rent_analysis_neighborhood := "Mission"; rent_avg := 2000 |} ]
                [ {| crime_analysis_neighborhood := "Mission" |} ]
                [ {| walk_neighborhood_name := "Mission"; NatWalkInd := 15 |} ]
                "Nowhere") as (_ & _ & H & _).
    apply H. cbn. rewrite elem_of_cons. intros [E|E]; [discriminate | by apply elem_of_nil in E].
Defined.

Lemma sum_bounds (lo hi : Q) (col : list Q) :
  Forall (fun v => lo <= v <= hi) col ->
  inject_Z (Z.of_nat (length col)) * lo <= fold_right Qplus 0 col
  /\ fold_right Qplus 0 col <= inject_Z (Z.of_nat (length col)) * hi.
Proof.
  induction 1 as [|v r [Hlo Hhi] _ [IHlo IHhi]].
  - change (inject_Z (Z.of_nat (@length Q []))) with 0. cbn [fold_right]. split; lra.
  - cbn [length fold_right]. rewrite Nat2Z.inj_succ. unfold Z.succ.
    rewrite inject_Z_plus. change (inject_Z 1) with 1.
    set (n := inject_Z (Z.of_nat (length r))) in *. split; lra.
Qed.

(** The mean of a non-empty column lies between any bounds of its values. *)
Lemma mean_bounds (lo hi : Q) (col : list Q) :
  col <> [] -> Forall (fun v => lo <= v <= hi) col -> lo <= mean col <= hi.
Proof.
  intros Hne Hall. destruct (sum_bounds lo hi col Hall) as [Hlo Hhi].
  unfold mean.
  assert (Hn : 0 < inject_Z (Z.of_nat (length col))).
  { change 0 with (inject_Z 0). rewrite <- Zlt_Qlt.
    destruct col; [done | cbn [length]; lia]. }
  set (n := inject_Z (Z.of_nat (length col))) in *. split.
  - apply Qle_shift_div_l; [exact Hn | lra].
  - apply Qle_shift_div_r; [exact Hn | lra].
Qed.

(** X4.  For a neighborhood all of whose walkability indicators lie in
    [0,20], the stored walkability score lies in [0,100] and the stored
    walk index in [0,20]; a neighborhood without walkability rows gets
    the walk index 10 and the walkability score 50. *)
Theorem walkability_in_range_for_valid_indices
    (rental_df : list RentalRow) (crime_df : list CrimeRow)
    (walkability_df : list WalkRow) (name : string) (nd : Neighborhood) :
  dict_lookup (_process_neighborhood_data rental_df crime_df walkability_df) name
  = Some nd ->
  Forall (fun v => 0 <= v <= 20) (walk_rows_of walkability_df name) ->
  0 <= walkability_score nd <= 100
  /\ 0 <= walk_index nd <= 20
  /\ (walk_rows_of walkability_df name = [] ->
      walkability_score nd == 50 /\ walk_index nd == 10).
Proof.
  rewrite neighborhood_lookup_profile.
  destruct (decide _); [|discriminate]. intros [= <-] Hall.
  cbn [walkability_score walk_index neighborhood_profile].
  set (w := match walk_rows_of walkability_df name with
            | [] => 10 | col => mean col end).
  assert (Hw : 0 <= w <= 20).
  { unfold w. destruct (walk_rows_of walkability_df name) as [|v r] eqn:E.
    - split; [vm_compute | vm_compute]; discriminate.
    - apply mean_bounds; [discriminate | exact Hall]. }
  split; [|split].
  - split.
    + apply py_round_1_nonneg, walkability_score_of_nonneg, Hw.
    + apply py_round_1_le_100, walkability_score_of_le.
  - split.
    + apply py_round_1_nonneg, Hw.
    + assert (E : 20 == inject_Z 200 / inject_Z (10 ^ Z.of_nat 1)) by reflexivity.
      rewrite E. apply py_round_upper. rewrite <- E. apply Hw.
  - intros Hnone. unfold w. rewrite Hnone. split; reflexivity.
Qed.

Lemma walkability_in_range_for_valid_indices_witness :
  exists nd, dict_lookup (neighborhoods sample_data) "Mission" = Some nd
             /\ 0 <= walkability_score nd <= 100.
Proof.
  eexists. split; [reflexivity|].
  refine (proj1 (walkability_in_range_for_valid_indices
            [ {| rent_analysis_neighborhood := "Mission"; rent_avg := 2000 |} ]
            [ {| crime_analysis_neighborhood := "Mission" |} ]
            [ {| walk_neighborhood_name := "Mission"; NatWalkInd := 15 |} ]
            "Mission" _ eq_refl _)).
  repeat constructor; vm_compute; discriminate.
Defined.

Lemma safety_color_comp (x y : Q) :
  x == y -> _get_safety_color x = _get_safety_color y.
Proof.
  intros E. unfold _get_safety_color.
  assert (H : forall k, Qle_bool k x = Qle_bool k y).
  { intros k. destruct (Qle_bool k x) eqn:E1, (Qle_bool k y) eqn:E2; try done.
    - apply Qle_bool_iff in E1. rewrite E in E1. apply Qle_bool_iff in E1. congruence.
    - apply Qle_bool_iff in E2. rewrite <- E in E2. apply Qle_bool_iff in E2. congruence. }
  by rewrite !H.
Qed.

Lemma Qle_bool_false (x y : Q) : Qle_bool x y = false <-> y < x.
Proof.
  split.
  - intros H. apply Qnot_le_lt. intros Hle. apply Qle_bool_iff in Hle. congruence.
  - intros H. destruct (Qle_bool x y) eqn:E; [|done].
    apply Qle_bool_iff in E. lra.
Qed.

(** X5.  On every profile of the builder the colour of the safety card
    agrees with the protection need: green exactly for Low, amber for
    Medium, orange for High and red for Very High. *)
Theorem safety_color_matches_protection_need
    (crime_count : nat) (walk_score avg_rent : Q) :
  let nd := neighborhood_profile crime_count walk_score avg_rent in
  let color := _get_safety_color (safety_score nd) in
  (color = "#27ae60" <-> protection_need nd = "Low")
  /\ (color = "#f39c12" <-> protection_need nd = "Medium")
  /\ (color = "#e67e22" <-> protection_need nd = "High")
  /\ (color = "#e74c3c" <-> protection_need nd = "Very High").
Proof.
  cbn zeta.
  rewrite (safety_color_comp _ _ (safety_score_stored_exact crime_count walk_score avg_rent)).
  cbn [protection_need neighborhood_profile].
  set (s := safety_score_of crime_count).
  unfold _get_safety_color, protection_need_of.
  destruct (Qle_bool 80 s) eqn:E80; [apply Qle_bool_iff in E80 | apply Qle_bool_false in E80];
  (destruct (Qle_bool 60 s) eqn:E60; [apply Qle_bool_iff in E60 | apply Qle_bool_false in E60]);
  (destruct (Qle_bool 40 s) eqn:E40; [apply Qle_bool_iff in E40 | apply Qle_bool_false in E40]);
  destruct (Qlt_le_dec s 40), (Qlt_le_dec s 60), (Qlt_le_dec s 80);
  try lra; repeat split; intros; try done.
Qed.

(** X6.  On every profile of the builder the colour of the crime card
    is consistent with the protection need: a green crime card implies
    the need Low, a red one implies High or Very High, the need Very
    High implies a red crime card, and the need Low a green or amber
    one. *)
Theorem crime_color_vs_protection_need
    (count : nat) (walk_score avg_rent : Q) :
  let nd := neighborhood_profile count walk_score avg_rent in
  let color := _get_crime_color (crime_count nd) in
  (color = "#27ae60" -> protection_need nd = "Low")
  /\ (color = "#e74c3c" ->
      protection_need nd = "High" \/ protection_need nd = "Very High")
  /\ (protection_need nd = "Very High" -> color = "#e74c3c")
  /\ (protection_need nd = "Low" -> color = "#27ae60" \/ color = "#f39c12").
Proof.
  cbn zeta. cbn [protection_need crime_count neighborhood_profile].
  pose proof (safety_score_of_cases count) as (Hs & Hz).
  unfold _get_crime_color, protection_need_of.
  set (s := safety_score_of count) in *.
  set (z := inject_Z (Z.of_nat count)) in *.
  assert (Hle : forall k : nat, (count <= k)%nat -> z <= inject_Z (Z.of_nat k)).
  { intros k H. unfold z. rewrite <- Zle_Qle. lia. }
  assert (Hlt : forall k : nat, (k < count)%nat -> inject_Z (Z.of_nat k) < z).
  { intros k H. unfold z. rewrite <- Zlt_Qlt. lia. }
  assert (Es : (s == 100 - z * (1 # 2) /\ z <= 200) \/ (s == 0 /\ 200 < z)).
  { destruct (le_lt_dec count 200) as [H|H].
    - left. split; [rewrite (Hs H); field | apply (Hle 200%nat H)].
    - right. split; [apply Hz; lia | apply (Hlt 200%nat H)]. }
  change (inject_Z (Z.of_nat 200)) with 200 in Es.
  destruct (Nat.leb_spec count 30) as [H30|H30];
    [apply (Hle 30%nat) in H30 | apply (Hlt 30%nat) in H30];
  (destruct (Nat.leb_spec count 60) as [H60|H60];
    [apply (Hle 60%nat) in H60 | apply (Hlt 60%nat) in H60]);
  (destruct (Nat.leb_spec count 100) as [H100|H100];
    [apply (Hle 100%nat) in H100 | apply (Hlt 100%nat) in H100]);
  change (inject_Z (Z.of_nat 30)) with 30 in H30;
  change (inject_Z (Z.of_nat 60)) with 60 in H60;
  change (inject_Z (Z.of_nat 100)) with 100 in H100;
  destruct Es as [[Es Hz200]|[Es Hz200]];
  destruct (Qlt_le_dec s 40), (Qlt_le_dec s 60), (Qlt_le_dec s 80);
  try lra; repeat split; intros; try done; try (by left); try (by right).
Qed.

(** * More on the dog profile builder *)

Lemma process_dog_row_inv (row : AnimalRow) (orgs : list OrgRow) (dog : Dog) :
  process_dog_row row orgs = Ok dog ->
  exists s, row_name row = PStr s
    /\ name dog = take_str 30 s
    /\ breed dog = take_str 30 (row_primary_breed row)
    /\ size dog = row_size row
    /\ age dog = row_age row
    /\ protection_score dog
       = _calculate_protection_score (row_size row)
           (take_str 30 (row_primary_breed row)) (row_age row)
    /\ family_score dog = _calculate_family_score row
    /\ training_score dog = _calculate_training_score row (row_age row)
    /\ monthly_cost dog
       = _calculate_monthly_cost (row_size row) (row_special_needs row)
    /\ good_with_children dog = _parse_boolean_safe (row_good_with_children row)
    /\ house_trained dog = _parse_boolean_safe (row_house_trained row)
    /\ shelter dog = info_name (_get_shelter_info (row_organization_id row) orgs)
    /\ shelter_phone dog
       = info_phone (_get_shelter_info (row_organization_id row) orgs)
    /\ description dog
       = (if (150 <? String.length (row_description row))%nat
          then take_str 150 (row_description row) ++ "..."
          else row_description row)
    /\ at_construction dog = dog.
Proof.
  unfold process_dog_row. destruct (row_name row) as [| | | | |s]; cbn; try discriminate.
  intros [= <-]. exists s. cbn. repeat split; reflexivity.
Qed.

(** X7.  Every dog that the builder produces from a row has a
    protection score in [40,100], a family score in [60,100] and a
    training score in [50,100]; a dog good with children has a family
    score of at least 90, and a house-trained dog a family score of at
    least 75 and a training score of at least 80. *)
Theorem built_dog_score_ranges (row : AnimalRow) (orgs : list OrgRow) (dog : Dog) :
  process_dog_row row orgs = Ok dog ->
  (40 <= protection_score dog <= 100)%Z
  /\ (60 <= family_score dog <= 100)%Z
  /\ (50 <= training_score dog <= 100)%Z
  /\ (good_with_children dog = true -> (90 <= family_score dog)%Z)
  /\ (house_trained dog = true ->
      (75 <= family_score dog)%Z /\ (80 <= training_score dog)%Z).
Proof.
  intros H. pose proof (process_dog_row_protection _ _ _ H) as Hp.
  apply process_dog_row_inv in H
    as (s & _ & _ & _ & _ & _ & _ & Hf & Ht & _ & Hg & Hh & _).
  rewrite Hf, Ht, Hg, Hh.
  unfold _calculate_family_score, _calculate_training_score.
  destruct (_parse_boolean_safe (row_good_with_children row)),
           (_parse_boolean_safe (row_house_trained row)),
           (_parse_boolean_safe (row_shots_current row)),
           (_parse_boolean_safe (row_spayed_neutered row)),
           (_parse_boolean_safe (row_special_needs row));
    cbn [negb];
    destruct (row_age row =? "Young"), (row_age row =? "Adult"),
             (row_age row =? "Baby");
    repeat split; try lia; try done.
Qed.

Lemma built_dog_score_ranges_witness :
  exists dog, process_dog_row (sample_row "Rex" "Large" (PBool false)) [sample_org] = Ok dog
              /\ (60 <= family_score dog <= 100)%Z
              /\ (50 <= training_score dog <= 100)%Z.
Proof.
  eexists. split; [reflexivity|].
  refine (let H := built_dog_score_ranges (sample_row "Rex" "Large" (PBool false))
                     [sample_org] _ eq_refl in
          conj (proj1 (proj2 H)) (proj1 (proj2 (proj2 H)))).
Defined.

(** X8.  The monthly cost of a built dog is the base cost of its size
    times 1.4 when the raw special-needs value of the row is true for
    Python, and the base cost otherwise; it is a whole number between
    70 and 217. *)
Theorem built_dog_monthly_cost (row : AnimalRow) (orgs : list OrgRow) (dog : Dog) :
  process_dog_row row orgs = Ok dog ->
  let base := inject_Z (dict_get base_costs (row_size row) 95%Z) in
  (py_bool (row_special_needs row) = true -> monthly_cost dog == base * 1.4)
  /\ (py_bool (row_special_needs row) = false -> monthly_cost dog == base)
  /\ 70 <= monthly_cost dog <= 217
  /\ exists z : Z, monthly_cost dog == inject_Z z.
Proof.
  intros H. apply process_dog_row_inv in H
    as (s & _ & _ & _ & _ & _ & _ & _ & _ & Hc & _).
  cbn zeta. rewrite Hc.
  pose proof (monthly_cost_by_truthiness (row_size row) (row_special_needs row)) as E.
  pose proof (base_cost_cases (row_size row)) as Hb. cbn zeta in Hb.
  split; [|split; [|split]].
  - intros Ht. by rewrite Ht in E.
  - intros Hf. by rewrite Hf in E.
  - rewrite E. destruct (py_bool _);
      destruct Hb as [-> | [-> | [-> | ->]]]; split; vm_compute; discriminate.
  - unfold _calculate_monthly_cost. eexists. apply py_round_0.
Qed.

Lemma built_dog_monthly_cost_witness :
  exists dog, process_dog_row (sample_row "Bo" "Small" (PStr "no")) [sample_org] = Ok dog
              /\ monthly_cost dog == 98.
Proof.
  eexists. split; [reflexivity|].
  destruct (built_dog_monthly_cost (sample_row "Bo" "Small" (PStr "no"))
              [sample_org] _ eq_refl) as (H & _).
  rewrite H; reflexivity.
Defined.

Lemma length_substring_le (n : nat) (s : string) :
  (String.length (String.substring 0 n s) <= n)%nat.
Proof.
  revert s. induction n as [|n IH]; intros [|c s]; cbn; try lia.
  specialize (IH s). lia.
Qed.

Lemma substring_short (n : nat) (s : string) :
  (String.length s <= n)%nat -> String.substring 0 n s = s.
Proof.
  revert s. induction n as [|n IH]; intros [|c s]; cbn; try done; try lia.
  intros H. f_equal. apply IH. lia.
Qed.

Lemma length_substring_long (n : nat) (s : string) :
  (n <= String.length s)%nat -> String.length (String.substring 0 n s) = n.
Proof.
  revert s. induction n as [|n IH]; intros [|c s]; cbn; try done; try lia.
  intros H. f_equal. apply IH. lia.
Qed.

Lemma length_string_app (a b : string) :
  String.length (a ++ b) = (String.length a + String.length b)%nat.
Proof. induction a as [|c a IH]; simpl; [done | by rewrite IH]. Qed.

(** X9.  The texts of a built dog are truncated: name and breed have at
    most 30 characters, the shelter name at most 40, the description at
    most 153; a description of at most 150 characters is kept as it is,
    a longer one becomes its first 150 characters followed by "...";
    a breed of at most 30 characters is kept as it is. *)
Theorem built_dog_text_is_truncated (row : AnimalRow) (orgs : list OrgRow) (dog : Dog) :
  process_dog_row row orgs = Ok dog ->
  (String.length (name dog) <= 30)%nat
  /\ (String.length (breed dog) <= 30)%nat
  /\ (String.length (shelter dog) <= 40)%nat
  /\ (String.length (description dog) <= 153)%nat
  /\ ((String.length (row_description row) <= 150)%nat ->
      description dog = row_description row)
  /\ ((150 < String.length (row_description row))%nat ->
      String.length (description dog) = 153%nat
      /\ description dog = String.substring 0 150 (row_description row) ++ "...")
  /\ ((String.length (row_primary_breed row) <= 30)%nat ->
      breed dog = row_primary_breed row).
Proof.
  intros H. apply process_dog_row_inv in H
    as (s & _ & Hn & Hb & _ & _ & _ & _ & _ & _ & _ & _ & Hs & _ & Hd & _).
  rewrite Hn, Hb, Hs, Hd. unfold take_str.
  split; [apply length_substring_le|]. split; [apply length_substring_le|].
  split.
  { unfold _get_shelter_info. destruct (filter _ orgs); cbn.
    - lia.
    - apply length_substring_le. }
  destruct (Nat.ltb_spec 150 (String.length (row_description row))) as [Hlong|Hshort].
  - rewrite length_string_app, length_substring_long by lia. cbn.
    repeat split; try lia. by apply substring_short.
  - repeat split; try lia. by apply substring_short.
Qed.

Lemma built_dog_text_is_truncated_witness :
  exists dog, process_dog_row (sample_row "Rex" "Large" (PBool false)) [sample_org] = Ok dog
              /\ description dog = "Friendly".
Proof.
  eexists. split; [reflexivity|].
  destruct (built_dog_text_is_truncated (sample_row "Rex" "Large" (PBool false))
              [sample_org] _ eq_refl) as (_ & _ & _ & _ & H & _).
  apply H. cbn. lia.
Defined.

Lemma process_rows_names (rows : list AnimalRow) (orgs : list OrgRow) :
  map name
    (fold_right (fun dog dogs =>
                   match process_dog_row dog orgs with
                   | Ok d => d :: dogs
                   | Raise _ => dogs
                   end) [] rows)
  = omap catalog_name rows.
Proof.
  induction rows as [|row rest IH]; [done|].
  cbn [fold_right].
  change (omap catalog_name (row :: rest))
    with (match catalog_name row with
          | Some y => y :: omap catalog_name rest
          | None => omap catalog_name rest
          end).
  assert (Hc : match process_dog_row row orgs with
               | Ok d => catalog_name row = Some (name d)
               | Raise _ => catalog_name row = None
               end).
  { unfold process_dog_row, catalog_name. destruct (row_name row); reflexivity. }
  destruct (process_dog_row row orgs); rewrite Hc; cbn; by rewrite IH.
Qed.

(** X10.  The catalog lists, in table order, exactly the selected rows
    whose name is a string, under that name cut to 30 characters: a row
    with any other name value is skipped, so the catalog is never
    longer than the selection; and no built dog carries a request key. *)
Theorem catalog_lists_named_rows_in_order
    (animals_df : list AnimalRow) (organizations_df : list OrgRow) :
  let rows := fst (select_sf_dogs animals_df organizations_df) in
  map name (_process_dog_data animals_df organizations_df) = omap catalog_name rows
  /\ length (_process_dog_data animals_df organizations_df)
     = length (filter (fun row => is_Some (catalog_name row)) rows)
  /\ (length (_process_dog_data animals_df organizations_df) <= length rows)%nat
  /\ Forall (fun dog => at_construction dog = dog)
            (_process_dog_data animals_df organizations_df).
Proof.
  cbn zeta. unfold _process_dog_data.
  destruct (select_sf_dogs animals_df organizations_df) as [rows orgs]. cbn [fst].
  pose proof (process_rows_names rows orgs) as Hn.
  assert (Hlen : length (omap catalog_name rows)
                 = length (filter (fun row => is_Some (catalog_name row)) rows)).
  { clear. induction rows as [|row rest IH]; [done|].
    change (omap catalog_name (row :: rest))
      with (match catalog_name row with
            | Some y => y :: omap catalog_name rest
            | None => omap catalog_name rest
            end).
    rewrite filter_cons.
    destruct (catalog_name row) eqn:E.
    - rewrite decide_True by (by eexists). cbn. by rewrite IH.
    - rewrite decide_False; [done|]. by intros [? ?]. }
  split; [exact Hn|]. split; [|split].
  - by rewrite <- Hlen, <- Hn, length_map.
  - rewrite <- (length_map name), Hn, Hlen. apply length_filter.
  - clear. induction rows as [|row rest IH]; cbn; [constructor|].
    destruct (process_dog_row row orgs) eqn:E; [|exact IH].
    constructor; [|exact IH].
    by apply process_dog_row_inv in E
      as (s & _ & _ & _ & _ & _ & _ & _ & _ & _ & _ & _ & _ & _ & _ & ?).
Qed.

Lemma selected_row_is_dog_row
    (animals_df : list AnimalRow) (organizations_df : list OrgRow) (row : AnimalRow) :
  row ∈ fst (select_sf_dogs animals_df organizations_df) ->
  row ∈ animals_df /\ row_type row = "Dog".
Proof.
  unfold select_sf_dogs. cbn [fst].
  match goal with
  | |- context [if ?c then _ else _] => destruct c
  end; intros H; [apply subseteq_take in H|];
    apply list_elem_of_filter in H as [_ H];
    apply list_elem_of_filter in H; tauto.
Qed.

(** X11.  Every selected row is a row of the animal table of type Dog
    that belongs to an organization of the table in state CA; the
    organizations kept are all in CA, and either all have an allowed
    postal code or there are at most 20 of them; the selected dogs
    either all belong to the kept organizations or are at most 20. *)
Theorem selected_rows_are_california_dogs
    (animals_df : list AnimalRow) (organizations_df : list OrgRow) (row : AnimalRow) :
  let sf_dogs := fst (select_sf_dogs animals_df organizations_df) in
  let sf_orgs := snd (select_sf_dogs animals_df organizations_df) in
  (row ∈ sf_dogs ->
   row ∈ animals_df /\ row_type row = "Dog"
   /\ exists org, org ∈ organizations_df /\ org_address_state org = "CA"
                  /\ org_organization_id org = row_organization_id row)
  /\ Forall (fun org => org ∈ organizations_df /\ org_address_state org = "CA") sf_orgs
  /\ (Forall (fun org => org_address_postcode org ∈ sf_zip_codes) sf_orgs
      \/ (length sf_orgs <= 20)%nat)
  /\ (Forall (fun r => row_organization_id r ∈ map org_organization_id sf_orgs) sf_dogs
      \/ (length sf_dogs <= 20)%nat).
Proof.
  cbn zeta. unfold select_sf_dogs.
  set (dogs_df := filter (fun a => row_type a = "Dog") animals_df).
  set (zip_orgs := filter (fun o => org_address_state o = "CA"
                                    /\ org_address_postcode o ∈ sf_zip_codes)
                          organizations_df).
  set (ca_orgs := filter (fun o => org_address_state o = "CA") organizations_df).
  set (sf_orgs := if (length zip_orgs =? 0)%nat then take 20 ca_orgs else zip_orgs).
  set (own := filter (fun a => row_organization_id a ∈ map org_organization_id sf_orgs)
                     dogs_df).
  cbn [fst snd].
  assert (Horgs : Forall (fun org => org ∈ organizations_df
                                     /\ org_address_state org = "CA") sf_orgs).
  { apply Forall_forall. intros org Horg. unfold sf_orgs in Horg.
    destruct (length zip_orgs =? 0)%nat.
    - apply subseteq_take in Horg. apply list_elem_of_filter in Horg. tauto.
    - apply list_elem_of_filter in Horg. tauto. }
  split; [|split; [exact Horgs|split]].
  - intros Hrow.
    assert (Hca : forall ids : list OrgRow,
              Forall (fun org => org ∈ organizations_df
                                 /\ org_address_state org = "CA") ids ->
              row ∈ filter (fun a => row_organization_id a ∈ map org_organization_id ids)
                           dogs_df ->
              row ∈ animals_df /\ row_type row = "Dog"
              /\ exists org, org ∈ organizations_df /\ org_address_state org = "CA"
                             /\ org_organization_id org = row_organization_id row).
    { intros ids Hids Hin. apply list_elem_of_filter in Hin as [Hid Hdog].
      apply list_elem_of_filter in Hdog as [Htype Hanimal].
      apply list_elem_of_fmap in Hid as (org & Heq & Horg).
      rewrite Forall_forall in Hids. destruct (Hids org Horg) as [? ?].
      split; [done|]. split; [done|]. exists org. by rewrite Heq. }
    destruct (length own =? 0)%nat.
    + apply subseteq_take in Hrow. apply (Hca ca_orgs); [|exact Hrow].
      apply Forall_forall. intros org Horg. apply list_elem_of_filter in Horg. tauto.
    + by apply (Hca sf_orgs).
  - unfold sf_orgs. destruct (length zip_orgs =? 0)%nat.
    + right. rewrite length_take. lia.
    + left. apply Forall_forall. intros org Horg.
      apply list_elem_of_filter in Horg. tauto.
  - destruct (length own =? 0)%nat.
    + right. rewrite length_take. lia.
    + left. apply Forall_forall. intros r Hr.
      by apply list_elem_of_filter in Hr as [? _].
Qed.

Lemma selected_rows_are_california_dogs_witness :
  row_type (sample_row "Rex" "Large" (PBool false)) = "Dog".
Proof.
  destruct (selected_rows_are_california_dogs
              [sample_row "Rex" "Large" (PBool false)] [sample_org]
              (sample_row "Rex" "Large" (PBool false))) as (H & _).
  destruct H as (_ & Htype & _); [by left | exact Htype].
Defined.

Lemma built_dog_from_selected_row
    (animals_df : list AnimalRow) (organizations_df : list OrgRow) (dog : Dog) :
  dog ∈ _process_dog_data animals_df organizations_df ->
  exists row, row ∈ fst (select_sf_dogs animals_df organizations_df)
    /\ process_dog_row row (snd (select_sf_dogs animals_df organizations_df)) = Ok dog.
Proof.
  unfold _process_dog_data.
  destruct (select_sf_dogs animals_df organizations_df) as [rows orgs]. cbn [fst snd].
  induction rows as [|row rest IH]; cbn; [by intros ?%elem_of_nil|].
  destruct (process_dog_row row orgs) as [d|e] eqn:E.
  - intros [->|Hin]%elem_of_cons.
    + exists row. split; [by left | exact E].
    + destruct (IH Hin) as (r & ? & ?). exists r. split; [by right | done].
  - intros Hin. destruct (IH Hin) as (r & ? & ?). exists r. split; [by right | done].
Qed.

Lemma shelter_info_unknown (org_id : string) (orgs : list OrgRow) :
  org_id ∉ map org_organization_id orgs ->
  _get_shelter_info org_id orgs = placeholder_shelter.
Proof.
  intros Hnot. unfold _get_shelter_info.
  destruct (filter _ orgs) as [|org rest] eqn:E; [reflexivity|].
  exfalso. apply Hnot.
  assert (Hin : org ∈ filter (fun o => org_organization_id o = org_id) orgs)
    by (rewrite E; by left).
  apply list_elem_of_filter in Hin as [<- Hin].
  apply list_elem_of_fmap. by exists org.
Qed.

(** X12.  The shelter of an organization id that no row of the given
    table has is the placeholder; otherwise it is taken from the first
    row with that id, its name cut to 40 characters. *)
Theorem shelter_is_first_matching_organization
    (org_id : string) (organizations_df : list OrgRow) :
  (org_id ∉ map org_organization_id organizations_df ->
   _get_shelter_info org_id organizations_df = placeholder_shelter)
  /\ (org_id ∈ map org_organization_id organizations_df ->
      exists (before : list OrgRow) (org : OrgRow) (after : list OrgRow),
        organizations_df = (before ++ org :: after)%list
        /\ org_organization_id org = org_id
        /\ (org_id ∉ map org_organization_id before)
        /\ (_get_shelter_info org_id organizations_df
            = {| info_name := take_str 40 (org_name org);
                 info_phone := org_phone org;
                 info_email := org_email org |})).
Proof.
  split; [apply shelter_info_unknown|].
  induction organizations_df as [|o rest IH]; cbn [map].
  - by intros ?%elem_of_nil.
  - intros Hin. destruct (decide (org_organization_id o = org_id)) as [Heq|Hne].
    + exists [], o, rest. split; [done|]. split; [done|].
      split; [by intros ?%elem_of_nil|].
      unfold _get_shelter_info. by rewrite filter_cons_True.
    + apply elem_of_cons in Hin as [?|Hin]; [done|].
      destruct (IH Hin) as (before & org & after & -> & Hid & Hbefore & Hinfo).
      exists (o :: before), org, after. split; [done|]. split; [done|].
      split.
      * cbn [map]. rewrite elem_of_cons. intros [?|?]; [done | by apply Hbefore].
      * unfold _get_shelter_info in *. by rewrite filter_cons_False.
Qed.

Lemma shelter_is_first_matching_organization_witness :
  info_name (_get_shelter_info "XX9" [sample_org]) = "Local SF Shelter".
Proof.
  destruct (shelter_is_first_matching_organization "XX9" [sample_org]) as [H _].
  rewrite H; [reflexivity|].
  cbn. rewrite elem_of_cons. intros [E|E]; [discriminate | by apply elem_of_nil in E].
Defined.

(** X13.  When no Dog row belongs to one of the kept organizations (the
    last fallback of the selection), every dog of the catalog gets the
    placeholder shelter "Local SF Shelter" with the phone
    "(415) 555-0000": the shelter is looked up among the kept
    organizations, not among the ones the dogs were taken from. *)
Theorem fallback_catalog_has_placeholder_shelter
    (animals_df : list AnimalRow) (organizations_df : list OrgRow) (dog : Dog) :
  let sf_orgs := snd (select_sf_dogs animals_df organizations_df) in
  (forall row, row ∈ animals_df -> row_type row = "Dog" ->
               row_organization_id row ∉ map org_organization_id sf_orgs) ->
  dog ∈ _process_dog_data animals_df organizations_df ->
  shelter dog = "Local SF Shelter" /\ shelter_phone dog = "(415) 555-0000".
Proof.
  cbn zeta. intros Hnone Hdog.
  apply built_dog_from_selected_row in Hdog as (row & Hrow & Hbuilt).
  destruct (selected_row_is_dog_row _ _ _ Hrow) as (Hin & Htype).
  apply process_dog_row_inv in Hbuilt
    as (s & _ & _ & _ & _ & _ & _ & _ & _ & _ & _ & _ & Hs & Hp & _).
  rewrite Hs, Hp, shelter_info_unknown by (by apply Hnone). done.
Qed.

Lemma fallback_catalog_has_placeholder_shelter_witness :
  exists dog, dog ∈ _process_dog_data [sample_row "Rex" "Large" (PBool false)]
                      [far_org; valley_org]
              /\ shelter dog = "Local SF Shelter".
Proof.
  eexists. split; [by left|].
  refine (proj1 (fallback_catalog_has_placeholder_shelter
                   [sample_row "Rex" "Large" (PBool false)]
                   [far_org; valley_org] _ _ _)).
  - intros row Hrow _. apply list_elem_of_singleton in Hrow as ->.
    intros E. vm_compute in E. apply list_elem_of_singleton in E. discriminate.
  - by left.
Defined.

(** * More on the match scores *)

(** X14.  The budget match returns a score whenever the budget limit is
    not zero; and if it raises, the exception is ZeroDivisionError, the
    budget limit is zero and the monthly cost of the dog is positive. *)
Theorem budget_match_raises_only_at_zero_budget
    (neighborhood_data : Neighborhood) (dog : Dog) :
  (~ budget_limit neighborhood_data == 0 ->
   exists m, _calculate_budget_match neighborhood_data dog = Ok m)
  /\ (forall e, _calculate_budget_match neighborhood_data dog = Raise e ->
                e = ZeroDivisionError
                /\ budget_limit neighborhood_data == 0
                /\ 0 < monthly_cost dog).
Proof.
  unfold _calculate_budget_match.
  set (b := budget_limit neighborhood_data). set (c := monthly_cost dog).
  destruct (Qle_bool c b) eqn:E1;
    [apply Qle_bool_iff in E1 | apply Qle_bool_false in E1].
  { split; [by eexists | intros e; discriminate]. }
  destruct (Qle_bool c (b * 1.2)) eqn:E2;
    [apply Qle_bool_iff in E2 | apply Qle_bool_false in E2].
  { split; [by eexists | intros e; discriminate]. }
  destruct (Qeq_bool b 0) eqn:E3.
  - apply Qeq_bool_iff in E3. split; [by intros []|].
    intros e [= <-]. split; [done|]. split; [exact E3 | lra].
  - split; [by eexists | intros e; discriminate].
Qed.

Lemma over_budget_ratio (b c c' : Q) :
  0 < b ->
  (c <= c' -> (c - b) / b * 100 <= (c' - b) / b * 100)
  /\ (b * 1.2 < c -> 20 < (c - b) / b * 100)
  /\ (2 * b <= c -> 100 <= (c - b) / b * 100).
Proof.
  intros Hb.
  assert (Hi : 0 < / b) by (by apply Qinv_lt_0_compat).
  assert (E : forall x, (x - b) / b * 100 == (x * / b - 1) * 100).
  { intros x. field. lra. }
  assert (Hone : b * / b == 1) by (apply Qmult_inv_r; lra).
  rewrite !E. split; [|split].
  - intros H. assert (c * / b <= c' * / b) by (apply Qmult_le_compat_r; lra). lra.
  - intros H. assert (b * 1.2 * / b < c * / b) by (apply Qmult_lt_compat_r; lra).
    assert (b * 1.2 * / b == 1.2) by (field; lra). lra.
  - intros H. assert (2 * b * / b <= c * / b) by (apply Qmult_le_compat_r; lra).
    assert (2 * b * / b == 2) by (field; lra). lra.
Qed.

(** X15.  For a positive budget limit the budget match is defined and
    does not grow with the monthly cost; it is 100 exactly for a cost
    within the budget, and 0 for a cost of at least twice the budget. *)
Theorem budget_match_decreases_with_cost
    (neighborhood_data : Neighborhood) (dog dog' : Dog) :
  0 < budget_limit neighborhood_data ->
  monthly_cost dog <= monthly_cost dog' ->
  exists m m',
    _calculate_budget_match neighborhood_data dog = Ok m
    /\ _calculate_budget_match neighborhood_data dog' = Ok m'
    /\ m' <= m
    /\ (monthly_cost dog <= budget_limit neighborhood_data <-> m == 100)
    /\ (2 * budget_limit neighborhood_data <= monthly_cost dog' -> m' == 0).
Proof.
  intros Hb Hc. unfold _calculate_budget_match.
  set (b := budget_limit neighborhood_data) in *.
  set (c := monthly_cost dog) in *. set (c' := monthly_cost dog') in *.
  destruct (over_budget_ratio b c c' Hb) as (Hmono & Hc20 & _).
  destruct (over_budget_ratio b c' c' Hb) as (_ & Hc20' & Hc100').
  assert (E3 : Qeq_bool b 0 = false).
  { destruct (Qeq_bool b 0) eqn:E; [|done]. apply Qeq_bool_iff in E. lra. }
  rewrite E3.
  destruct (Qle_bool c b) eqn:E1;
    [apply Qle_bool_iff in E1 | apply Qle_bool_false in E1];
  (destruct (Qle_bool c (b * 1.2)) eqn:E2;
    [apply Qle_bool_iff in E2 | apply Qle_bool_false in E2]);
  (destruct (Qle_bool c' b) eqn:E1';
    [apply Qle_bool_iff in E1' | apply Qle_bool_false in E1']);
  (destruct (Qle_bool c' (b * 1.2)) eqn:E2';
    [apply Qle_bool_iff in E2' | apply Qle_bool_false in E2']);
  try lra; eexists; eexists; (split; [reflexivity|]); (split; [reflexivity|]);
  try (specialize (Hc20 E2)); try (specialize (Hc20' E2'));
  try (specialize (Hmono Hc));
  repeat match goal with
         | |- context [Qmax 0 ?x] =>
             destruct (Q.max_spec 0 x) as [[? ->] | [? ->]]
         end;
  (split; [lra|]); (split; [split; intros; lra|]); intros H2;
  try (specialize (Hc100' H2)); lra.
Qed.

Lemma budget_match_decreases_with_cost_witness :
  exists m m',
    _calculate_budget_match sample_neighborhood (priced 110) = Ok m
    /\ _calculate_budget_match sample_neighborhood (priced 150) = Ok m'
    /\ m' <= m.
Proof.
  destruct (budget_match_decreases_with_cost sample_neighborhood
              (priced 110) (priced 150))
    as (m & m' & H1 & H2 & H3 & _).
  - reflexivity.
  - vm_compute. discriminate.
  - exists m, m'. exact (conj H1 (conj H2 H3)).
Defined.

Lemma pref_scores_lookup (p : ProtectionPref) :
  dict_lookup pref_scores (pref_value p) = Some (band p).
Proof. destruct p; reflexivity. Qed.

Lemma pref_scores_keys (protection_pref : string) :
  dict_lookup pref_scores protection_pref = None
  <-> forall p, protection_pref <> pref_value p.
Proof.
  split.
  - intros H p ->. rewrite (pref_scores_lookup p) in H. discriminate.
  - intros H. unfold pref_scores. cbn [dict_lookup].
    destruct (String.eqb_spec "Low" protection_pref) as [E|_];
      [by destruct (H PrefLow)|].
    destruct (String.eqb_spec "Medium" protection_pref) as [E|_];
      [by destruct (H PrefMedium)|].
    destruct (String.eqb_spec "High" protection_pref) as [E|_];
      [by destruct (H PrefHigh)|].
    destruct (String.eqb_spec "Very High" protection_pref) as [E|_];
      [by destruct (H PrefVeryHigh)|].
    reflexivity.
Qed.

(** X16.  The preference match raises KeyError for a preference that is
    none of the four known ones; for a known preference it is 100
    exactly when the protection score is inside the band of the
    preference (bounds included), and outside the band it is 100 minus
    twice the distance to the band, but not less than 0. *)
Theorem preference_match_band (protection_pref : string) (p : ProtectionPref) (dog : Dog) :
  ((forall q, protection_pref <> pref_value q) ->
   _calculate_preference_match protection_pref dog = Raise (KeyError protection_pref))
  /\ exists m, _calculate_preference_match (pref_value p) dog = Ok m
       /\ (m = 100%Z <-> (fst (band p) <= protection_score dog <= snd (band p))%Z)
       /\ ((protection_score dog < fst (band p))%Z ->
           m = Z.max 0 (100 - 2 * (fst (band p) - protection_score dog)))
       /\ ((snd (band p) < protection_score dog)%Z ->
           m = Z.max 0 (100 - 2 * (protection_score dog - snd (band p)))).
Proof.
  split.
  - intros H. apply pref_scores_keys in H.
    unfold _calculate_preference_match. by rewrite H.
  - unfold _calculate_preference_match. rewrite pref_scores_lookup.
    destruct (band p) as [lo hi] eqn:Eb. cbn [fst snd].
    assert (Hband : (lo < hi)%Z) by (destruct p; injection Eb as <- <-; lia).
    destruct (Z.leb_spec lo (protection_score dog)) as [H1|H1];
    destruct (Z.leb_spec (protection_score dog) hi) as [H2|H2]; cbn [andb];
    eexists; (split; [reflexivity|]); repeat split; intros; try lia.
Qed.

Lemma preference_match_band_witness :
  exists m, _calculate_preference_match "Medium" (priced 110) = Ok m
            /\ m = 60%Z.
Proof.
  destruct (preference_match_band "Medium" PrefMedium (priced 110))
    as (_ & m & Hm & _ & _ & Habove).
  exists m. split; [exact Hm|]. rewrite Habove; [reflexivity | reflexivity].
Defined.

Lemma Qabs_cases (x : Q) :
  (0 <= x /\ Qabs x == x) \/ (x <= 0 /\ Qabs x == - x).
Proof.
  destruct (Qlt_le_dec x 0) as [H|H].
  - right. split; [lra|]. apply Qabs_neg. lra.
  - left. split; [exact H|]. by apply Qabs_pos.
Qed.

(** X17.  Between two dogs, the one with the higher protection score
    has the higher (or equal) safety match when the need is Very High or
    High, and the lower (or equal) one for any need other than Very
    High, High and Medium, where a score of at most 40 gives 100; for
    the need Medium the match is at most 100, is 100 at the score 60 and
    falls on both sides of 60. *)
Theorem safety_match_follows_need (neighborhood_data : Neighborhood) (dog dog' : Dog) :
  (protection_score dog <= protection_score dog')%Z ->
  let need := protection_need neighborhood_data in
  let m := _calculate_safety_match neighborhood_data dog in
  let m' := _calculate_safety_match neighborhood_data dog' in
  (need = "Very High" \/ need = "High" -> m <= m')
  /\ (need <> "Very High" -> need <> "High" -> need <> "Medium" ->
      m' <= m /\ m <= 100
      /\ ((protection_score dog <= 40)%Z -> m == 100))
  /\ (need = "Medium" ->
      m <= 100 /\ (protection_score dog = 60%Z -> m == 100)
      /\ ((60 <= protection_score dog)%Z -> m' <= m)
      /\ ((protection_score dog' <= 60)%Z -> m <= m')).
Proof.
  intros Hps. cbn zeta. unfold _calculate_safety_match.
  rewrite Zle_Qle in Hps.
  set (p := inject_Z (protection_score dog)) in *.
  set (p' := inject_Z (protection_score dog')) in *.
  assert (H40 : (protection_score dog <= 40)%Z -> p <= 40).
  { intros H. unfold p. by rewrite Zle_Qle in H. }
  assert (H60 : (60 <= protection_score dog)%Z -> 60 <= p).
  { intros H. unfold p. by rewrite Zle_Qle in H. }
  assert (H60' : (protection_score dog' <= 60)%Z -> p' <= 60).
  { intros H. unfold p'. by rewrite Zle_Qle in H. }
  assert (E60 : protection_score dog = 60%Z -> p == 60).
  { intros H. unfold p. by rewrite H. }
  destruct (String.eqb_spec (protection_need neighborhood_data) "Very High") as [E1|E1].
  { split; [|split]; [| intros; congruence | intros; congruence].
    intros _.
    destruct (Q.min_spec 100 (p * 1.2)) as [[? ->]|[? ->]];
    destruct (Q.min_spec 100 (p' * 1.2)) as [[? ->]|[? ->]]; lra. }
  destruct (String.eqb_spec (protection_need neighborhood_data) "High") as [E2|E2].
  { split; [|split]; [| intros; congruence | intros; congruence]. intros _. lra. }
  destruct (String.eqb_spec (protection_need neighborhood_data) "Medium") as [E3|E3].
  { split; [|split]; [intros [?|?]; congruence | intros; congruence |].
    intros _.
    destruct (Qabs_cases (p - 60)) as [[? ->]|[? ->]];
    destruct (Qabs_cases (p' - 60)) as [[? ->]|[? ->]];
    repeat split; intros;
    try (pose proof (H60 ltac:(assumption)));
    try (pose proof (H60' ltac:(assumption)));
    try (pose proof (E60 ltac:(assumption)));
    lra. }
  split; [|split]; [intros [?|?]; congruence | | intros; congruence].
  intros _ _ _.
  destruct (Qlt_le_dec 40 p), (Qlt_le_dec 40 p');
    repeat split; intros; try (pose proof (H40 ltac:(assumption))); lra.
Qed.

Lemma safety_match_follows_need_witness :
  _calculate_safety_match sample_neighborhood (sample_dogs !!! 0%nat)
  <= _calculate_safety_match sample_neighborhood (sample_dogs !!! 1%nat).
Proof.
  destruct (safety_match_follows_need sample_neighborhood
              (sample_dogs !!! 1%nat) (sample_dogs !!! 0%nat))
    as (_ & Hlow & _).
  - vm_compute. discriminate.
  - destruct Hlow as (H & _); [discriminate | discriminate | discriminate | exact H].
Defined.

(** X18.  For the same breed and age the protection score does not
    fall from Small to Medium to Large to Extra Large, Extra Large gives
    the highest score of all sizes, and an unrecognized size scores like
    no size and at most like Small; for the same size and breed it does
    not fall from Baby to Young to Adult, Senior scores like Adult, and
    Adult gives the highest score of all ages. *)
Theorem protection_score_grows_with_size (size breed age : string) :
  let score s := _calculate_protection_score s breed age in
  (score "Small" <= score "Medium" <= score "Large")%Z
  /\ (score "Large" <= score "Extra Large")%Z
  /\ (score size <= score "Extra Large")%Z
  /\ (size <> "Small" -> size <> "Medium" -> size <> "Large" ->
      size <> "Extra Large" ->
      (score size <= score "Small")%Z
      /\ score size = _calculate_protection_score "" breed age)
  /\ (_calculate_protection_score size breed "Baby"
      <= _calculate_protection_score size breed "Young"
      <= _calculate_protection_score size breed "Adult")%Z
  /\ _calculate_protection_score size breed "Senior"
     = _calculate_protection_score size breed "Adult"
  /\ (_calculate_protection_score size breed age
      <= _calculate_protection_score size breed "Adult")%Z.
Proof.
  cbn zeta. unfold _calculate_protection_score.
  set (b := existsb (fun pb => contains pb (lower breed)) protective_breeds).
  cbn [String.eqb Ascii.eqb Bool.eqb str_in existsb orb andb].
  repeat split.
  all: intros.
  all: repeat match goal with
              | |- context [String.eqb ?a ?b] =>
                  destruct (String.eqb_spec a b); try congruence
              end;
       destruct b; cbn [orb]; try lia.
Qed.

Lemma protection_score_grows_with_size_witness :
  (_calculate_protection_score "Tiny" "Boxer" "Adult"
   <= _calculate_protection_score "Small" "Boxer" "Adult")%Z.
Proof.
  destruct (protection_score_grows_with_size "Tiny" "Boxer" "Adult")
    as (_ & _ & _ & H & _).
  destruct H as [H _]; [discriminate | discriminate | discriminate | discriminate |].
  exact H.
Defined.

(** * More on the ranker *)

Lemma ranker_ok_scored (heap heap' : store) (nd : Neighborhood)
    (size_pref pref : string) (recs : list nat) :
  _get_personalized_recommendations heap nd size_pref pref = (heap', Ok recs) ->
  forall r, r ∈ retained heap size_pref ->
            score_dog nd pref (heap !!! r) = Ok (heap' !!! r).
Proof.
  unfold _get_personalized_recommendations. rewrite size_filter_retained.
  destruct (score_loop _ _ _ _) as [h [[]|e]] eqn:E; [|discriminate].
  destruct (sort_keys h _) as [keyed|e] eqn:Ek; cbn; [|discriminate].
  intros [= <- _] r Hr.
  eapply score_loop_scored; [exact E | exact Hr |].
  by apply retained_spec in Hr as [? _].
Qed.

Lemma ranker_ok_form (heap heap' : store) (nd : Neighborhood)
    (size_pref pref : string) (recs : list nat) :
  _get_personalized_recommendations heap nd size_pref pref = (heap', Ok recs) ->
  recs = take 5 (map snd (sort_desc
           (map (fun r => (score_of nd pref (heap !!! r), r))
                (retained heap size_pref)))).
Proof.
  intros H.
  destruct (ranker_returns heap nd size_pref pref) as (h & Hh & _).
  { intros r Hr. eexists. by eapply ranker_ok_scored. }
  rewrite H in Hh. by injection Hh as _ ->.
Qed.

Lemma StronglySorted_take {A : Type} (R : A -> A -> Prop) (n : nat) (l : list A) :
  StronglySorted R l -> StronglySorted R (take n l).
Proof.
  intros H. revert n. induction H as [|x l Hl IH Hx]; intros [|n]; cbn;
    try constructor.
  - apply IH.
  - eapply Forall_impl; [|by intros ? H; exact H].
    rewrite Forall_forall in Hx |- *. intros y Hy. apply Hx.
    by apply subseteq_take in Hy.
Qed.

Lemma retained_NoDup (heap : store) (size_pref : string) :
  NoDup (retained heap size_pref).
Proof. unfold retained. apply NoDup_filter, NoDup_seq. Qed.

(** X19.  When the ranker returns, its result has at most 5 dogs and no
    dog twice; every returned dog is in the catalog, has the preferred
    size (or the preference is 'Any') and carries its compatibility
    score; the result is in descending score order; the first dog has
    the highest score of all retained dogs; and when at most 5 dogs are
    retained the result is a rearrangement of all of them. *)
Theorem ranker_result_shape (heap heap' : store) (nd : Neighborhood)
    (size_pref pref : string) (recs : list nat) :
  _get_personalized_recommendations heap nd size_pref pref = (heap', Ok recs) ->
  let key := fun r => score_of nd pref (heap !!! r) in
  (length recs <= 5)%nat
  /\ NoDup recs
  /\ (forall r, r ∈ recs ->
        (r < length heap)%nat
        /\ (size_pref = "Any" \/ size (heap' !!! r) = size_pref)
        /\ compatibility_score (heap' !!! r) = Some (key r))
  /\ StronglySorted (by_score key) recs
  /\ (forall top rest, recs = top :: rest ->
        forall r, r ∈ retained heap size_pref -> key r <= key top)
  /\ ((length (retained heap size_pref) <= 5)%nat ->
      recs ≡ₚ retained heap size_pref).
Proof.
  intros H. cbn zeta.
  pose proof (ranker_ok_form _ _ _ _ _ _ H) as Hform.
  pose proof (ranker_ok_scored _ _ _ _ _ _ H) as Hscored.
  pose proof (request_frame _ _ _ _ _ _ H) as [_ Hfr].
  set (key := fun r => score_of nd pref (heap !!! r)) in *.
  set (keyed := map (fun r => (key r, r)) (retained heap size_pref)) in *.
  set (sorted := map snd (sort_desc keyed)) in *.
  assert (Hperm : sorted ≡ₚ retained heap size_pref).
  { unfold sorted. rewrite sort_desc_perm. unfold keyed. by rewrite map_snd_decorate. }
  assert (Hk : keyed_by key (sort_desc keyed)).
  { eapply keyed_by_perm; [apply sort_desc_perm | apply keyed_by_decorate]. }
  assert (Hsorted : StronglySorted (by_score key) sorted).
  { apply keyed_by_sorted; [exact Hk | apply sort_desc_sorted]. }
  assert (Hnd : NoDup sorted) by (rewrite Hperm; apply retained_NoDup).
  assert (Hrecs : recs = take 5 sorted) by exact Hform.
  clear Hform Hk. clearbody sorted. subst recs.
  split; [rewrite length_take; lia|].
  split; [eapply sublist_NoDup; [exact Hnd | apply sublist_take]|].
  split; [|split; [by apply StronglySorted_take|split]].
  - intros r Hr. apply subseteq_take in Hr. rewrite Hperm in Hr.
    pose proof (Hscored r Hr) as Hs.
    apply retained_spec in Hr as [Hlt Hsize].
    split; [exact Hlt|]. split.
    + change (size (heap' !!! r)) with (size (at_construction (heap' !!! r))).
      by rewrite Hfr.
    + by apply (score_dog_compat _ _ _ _ Hs).
  - intros top rest Htop r Hr. rewrite <- Hperm in Hr.
    destruct sorted as [|t s] eqn:Es; [by apply elem_of_nil in Hr|].
    cbn in Htop. injection Htop as <- _.
    apply elem_of_cons in Hr as [->|Hr]; [apply Qle_refl|].
    apply StronglySorted_inv in Hsorted as [_ Hall].
    rewrite Forall_forall in Hall. by apply Hall.
  - intros Hlen. rewrite take_ge; [exact Hperm|]. by rewrite Hperm.
Qed.

Lemma ranker_result_shape_witness :
  exists heap' recs,
    _get_personalized_recommendations sample_dogs sample_neighborhood "Any" "Medium"
    = (heap', Ok recs)
    /\ NoDup recs /\ recs ≡ₚ [0; 1; 2]%nat.
Proof.
  eexists. eexists. split; [reflexivity|].
  destruct (ranker_result_shape sample_dogs _ sample_neighborhood "Any" "Medium" _
              eq_refl) as (_ & Hnd & _ & _ & _ & Hp).
  split; [exact Hnd|]. apply Hp. vm_compute. lia.
Defined.

Lemma at_construction_pointwise (heap1 heap2 : store) :
  map at_construction heap1 = map at_construction heap2 ->
  length heap1 = length heap2
  /\ forall i, at_construction (heap1 !!! i) = at_construction (heap2 !!! i).
Proof.
  intros H.
  assert (Hlen : length heap1 = length heap2).
  { by rewrite <- (length_map at_construction heap1), H, length_map. }
  split; [exact Hlen|]. intros i.
  destruct (decide (i < length heap1)%nat) as [Hlt|Hge].
  - apply (f_equal (fun l => l !! i)) in H. rewrite !list_lookup_fmap in H.
    rewrite (list_lookup_lookup_total_lt heap1 i) in H by lia.
    rewrite (list_lookup_lookup_total_lt heap2 i) in H by lia.
    change (Some (at_construction (heap1 !!! i))
            = Some (at_construction (heap2 !!! i))) in H.
    congruence.
  - rewrite !list_lookup_total_alt, !lookup_ge_None_2 by lia. done.
Qed.

Section Simulation.
Variables (nd : Neighborhood) (pref : string).

Lemma insert_pointwise (heap1 heap2 : store) (r : nat) (d : Dog) :
  length heap1 = length heap2 ->
  (forall i, at_construction (heap1 !!! i) = at_construction (heap2 !!! i)) ->
  forall i, at_construction (<[r:=d]> heap1 !!! i)
            = at_construction (<[r:=d]> heap2 !!! i).
Proof.
  intros Hlen Hpt i. destruct (decide (r = i)) as [->|Hne].
  - destruct (decide (i < length heap1)%nat) as [Hlt|Hge].
    + rewrite !list_lookup_total_insert_eq by lia. done.
    + rewrite !list_insert_ge by lia. apply Hpt.
  - rewrite !list_lookup_total_insert_ne by done. apply Hpt.
Qed.

(** The outcome of the loop depends on the construction-time keys only. *)
Lemma score_loop_sim (dogs : list nat) (heap1 heap2 : store) :
  length heap1 = length heap2 ->
  (forall i, at_construction (heap1 !!! i) = at_construction (heap2 !!! i)) ->
  snd (score_loop nd pref dogs heap1) = snd (score_loop nd pref dogs heap2).
Proof.
  revert heap1 heap2. induction dogs as [|r rest IH]; intros heap1 heap2 Hlen Hpt;
    cbn; [done|].
  rewrite (score_dog_ext nd pref _ _ (Hpt r)).
  destruct (score_dog nd pref (heap2 !!! r)) as [d|e]; [|done].
  apply IH; [by rewrite !length_insert | by apply insert_pointwise].
Qed.
End Simulation.

Lemma sort_keys_ext (heap1 heap2 : store) (dogs : list nat) :
  (forall r, r ∈ dogs -> heap1 !!! r = heap2 !!! r) ->
  sort_keys heap1 dogs = sort_keys heap2 dogs.
Proof.
  induction dogs as [|r rest IH]; intros H; cbn; [done|].
  rewrite (H r) by (by left). rewrite IH; [done|].
  intros; apply H; by right.
Qed.

Lemma impact_ext (heap1 heap2 : store) (nd : Neighborhood) (recs : list nat) :
  (forall r, r ∈ recs -> heap1 !!! r = heap2 !!! r) ->
  _calculate_impact_metrics heap1 nd recs = _calculate_impact_metrics heap2 nd recs.
Proof.
  intros H. destruct recs as [|top rest]; [done|].
  unfold _calculate_impact_metrics. by rewrite (H top) by (by left).
Qed.

Lemma ranker_sim (heap1 heap2 : store) (nd : Neighborhood) (size_pref pref : string) :
  map at_construction heap1 = map at_construction heap2 ->
  let out1 := _get_personalized_recommendations heap1 nd size_pref pref in
  let out2 := _get_personalized_recommendations heap2 nd size_pref pref in
  snd out1 = snd out2
  /\ ranked_dogs out1 = ranked_dogs out2
  /\ impact_of nd out1 = impact_of nd out2.
Proof.
  intros Hmap. apply at_construction_pointwise in Hmap as [Hlen Hpt]. cbn zeta.
  destruct (_get_personalized_recommendations heap1 nd size_pref pref)
    as [h1 res1] eqn:E1.
  destruct (_get_personalized_recommendations heap2 nd size_pref pref)
    as [h2 res2] eqn:E2.
  assert (Hres : res1 = res2 /\
                 forall recs, res1 = Ok recs ->
                   forall r, r ∈ recs -> h1 !!! r = h2 !!! r).
  { pose proof E1 as E1'. pose proof E2 as E2'.
    unfold _get_personalized_recommendations in E1', E2'.
    rewrite size_filter_retained in E1', E2'.
    rewrite <- (retained_frame heap2 heap1 size_pref Hlen Hpt) in E2'.
    pose proof (score_loop_sim nd pref (retained heap1 size_pref) _ _ Hlen Hpt) as Hsim.
    destruct (score_loop nd pref _ heap1) as [g1 [[]|e1]] eqn:L1;
    destruct (score_loop nd pref _ heap2) as [g2 [[]|e2]] eqn:L2;
      cbn in Hsim; try discriminate.
    - injection E1' as <- <-. injection E2' as <- <-.
      assert (Hsame : forall r, r ∈ retained heap1 size_pref -> g1 !!! r = g2 !!! r).
      { intros r Hr. pose proof Hr as Hlt. apply retained_spec in Hlt as [Hlt _].
        pose proof (score_loop_scored _ _ _ _ _ L1 r Hr Hlt) as S1.
        pose proof (score_loop_scored _ _ _ _ _ L2 r Hr ltac:(lia)) as S2.
        rewrite (score_dog_ext nd pref _ _ (Hpt r)) in S1. congruence. }
      rewrite (sort_keys_ext g1 g2 _ Hsame). split; [done|].
      intros recs Hrecs r Hr. apply Hsame.
      destruct (sort_keys g2 _) as [keyed|] eqn:Ek; cbn in Hrecs; [|discriminate].
      injection Hrecs as <-. apply subseteq_take in Hr.
      rewrite sort_desc_perm in Hr. by rewrite (sort_keys_snd _ _ _ Ek) in Hr.
    - injection E1' as <- <-. injection E2' as <- <-.
      split; [congruence | discriminate]. }
  destruct Hres as [<- Hsame]. cbn [snd fst]. split; [done|].
  unfold ranked_dogs, impact_of. cbn [fst snd].
  destruct res1 as [recs|e]; cbn; [|done].
  specialize (Hsame recs eq_refl). split.
  - f_equal. apply map_ext_in. intros r Hr. apply Hsame. by apply list_elem_of_In.
  - by apply impact_ext.
Qed.

(** X20.  The outcome of a request does not depend on the scores that
    earlier requests left on the dicts: a request made again after any
    other request returns the same addresses, the same scored dogs and
    the same impact metrics (or the same exception) as the first time,
    and so does the same request on any store with the same
    construction-time keys. *)
Theorem request_outcome_ignores_stale_scores
    (heap other : store) (nd nd' : Neighborhood) (size_pref pref size_pref' pref' : string) :
  let first := _get_personalized_recommendations heap nd size_pref pref in
  let between := _get_personalized_recommendations (fst first) nd' size_pref' pref' in
  let again := _get_personalized_recommendations (fst between) nd size_pref pref in
  (snd again = snd first
   /\ ranked_dogs again = ranked_dogs first
   /\ impact_of nd again = impact_of nd first)
  /\ (map at_construction other = map at_construction heap ->
      let out := _get_personalized_recommendations other nd size_pref pref in
      snd out = snd first
      /\ ranked_dogs out = ranked_dogs first
      /\ impact_of nd out = impact_of nd first).
Proof.
  cbn zeta. split.
  - apply ranker_sim.
    by rewrite !request_preserves_construction_fields.
  - intros H. by apply ranker_sim.
Qed.

Lemma request_outcome_ignores_stale_scores_witness :
  let stale := fst (_get_personalized_recommendations sample_dogs sample_neighborhood
                      "Small" "Very High") in
  ranked_dogs (_get_personalized_recommendations stale sample_neighborhood "Any" "Medium")
  = ranked_dogs (_get_personalized_recommendations sample_dogs sample_neighborhood
                   "Any" "Medium").
Proof.
  cbn zeta.
  destruct (request_outcome_ignores_stale_scores sample_dogs
              (fst (_get_personalized_recommendations sample_dogs sample_neighborhood
                      "Small" "Very High"))
              sample_neighborhood sample_neighborhood "Any" "Medium" "Any" "Medium")
    as (_ & H).
  destruct H as (_ & Hr & _); [reflexivity | exact Hr].
Defined.

Lemma score_loop_untouched (nd : Neighborhood) (pref : string)
    (dogs : list nat) (heap : store) (i : nat) :
  i ∉ dogs -> fst (score_loop nd pref dogs heap) !! i = heap !! i.
Proof.
  revert heap. induction dogs as [|r rest IH]; intros heap Hi; cbn; [done|].
  apply not_elem_of_cons in Hi as [Hne Hi].
  destruct (score_dog nd pref (heap !!! r)); [|done].
  rewrite IH by done. by apply list_lookup_insert_ne.
Qed.

(** X21.  A request changes the dicts of the retained dogs only: a dict
    of a dog that the size filter drops is left exactly as it was (with
    whatever scores an earlier request stored), and, when the ranker
    returns, the dict of a retained dog is its old dict with the four
    request keys set to the values of this request. *)
Theorem request_rewrites_retained_dogs_only
    (heap heap' : store) (nd : Neighborhood) (size_pref pref : string)
    (res : result (list nat)) (r : nat) :
  _get_personalized_recommendations heap nd size_pref pref = (heap', res) ->
  (r ∉ retained heap size_pref -> heap' !! r = heap !! r)
  /\ (r ∈ retained heap size_pref -> (exists recs, res = Ok recs) ->
      let ps := protection_score (heap !!! r) in
      heap' !!! r
      = with_scores (heap !!! r) (score_of nd pref (heap !!! r))
          (Qmin 30 (inject_Z ps * 0.3)) (60 + inject_Z ps * 0.5)
          (if (80 <=? ps)%Z then "High"
           else if (60 <=? ps)%Z then "Medium" else "Low")).
Proof.
  intros H. split.
  - intros Hr. unfold _get_personalized_recommendations in H.
    rewrite size_filter_retained in H.
    pose proof (score_loop_untouched nd pref _ heap r Hr) as Hu.
    destruct (score_loop nd pref _ heap) as [h [[]|e]]; injection H as <- _; exact Hu.
  - intros Hr [recs ->]. cbn zeta.
    pose proof (ranker_ok_scored _ _ _ _ _ _ H r Hr) as Hs.
    unfold score_dog, score_of in *.
    destruct (compatibility nd pref (heap !!! r)); cbn in Hs; [|discriminate].
    by injection Hs as <-.
Qed.

Lemma request_rewrites_retained_dogs_only_witness :
  let heap' := fst (_get_personalized_recommendations sample_dogs sample_neighborhood
                      "Small" "Medium") in
  heap' !! 0%nat = sample_dogs !! 0%nat.
Proof.
  cbn zeta.
  destruct (request_rewrites_retained_dogs_only sample_dogs _ sample_neighborhood
              "Small" "Medium" _ 0%nat eq_refl) as [H _].
  apply H. vm_compute. intros E. apply list_elem_of_singleton in E. discriminate.
Defined.

(** X22.  With a profile of the builder and a protection preference that
    is none of the four known ones, the ranker raises KeyError with that
    preference as soon as one dog is retained, and it leaves the store
    as it was. *)
Theorem unknown_preference_raises_key_error
    (heap : store) (crime_count : nat) (walk_score avg_rent : Q)
    (size_pref pref : string) :
  (forall q, pref <> pref_value q) ->
  retained heap size_pref <> [] ->
  _get_personalized_recommendations heap
    (neighborhood_profile crime_count walk_score avg_rent) size_pref pref
  = (heap, Raise (KeyError pref)).
Proof.
  intros Hpref Hne. unfold _get_personalized_recommendations.
  rewrite size_filter_retained.
  destruct (retained heap size_pref) as [|r rest]; [done|].
  cbn [score_loop]. unfold score_dog, compatibility.
  destruct (budget_match_bounds
              (neighborhood_profile crime_count walk_score avg_rent) (heap !!! r)
              (budget_limit_profile crime_count walk_score avg_rent))
    as (bm & -> & _).
  apply pref_scores_keys in Hpref. unfold _calculate_preference_match.
  rewrite Hpref. reflexivity.
Qed.

Lemma unknown_preference_raises_key_error_witness :
  _get_personalized_recommendations sample_dogs sample_neighborhood "Any" "Bogus"
  = (sample_dogs, Raise (KeyError "Bogus")).
Proof.
  apply (unknown_preference_raises_key_error sample_dogs 1 15 2000 "Any" "Bogus").
  - intros []; discriminate.
  - vm_compute. discriminate.
Defined.

Lemma ranker_length (heap heap' : store) (nd : Neighborhood)
    (size_pref pref : string) (recs : list nat) :
  _get_personalized_recommendations heap nd size_pref pref = (heap', Ok recs) ->
  length recs = Nat.min 5 (length (retained heap size_pref)).
Proof.
  intros H. rewrite (ranker_ok_form _ _ _ _ _ _ H).
  by rewrite length_take, length_map, sort_desc_perm, length_map.
Qed.

(** X23.  For a non-empty result of the ranker the impact summarizer
    returns a record: dogs_saved is the number of returned dogs (between
    1 and 5), the current safety score is that of the profile, the
    safety improvement is at most 30 and is the one stored on the top
    dog, the new safety score is at most 100 and at most the current
    score plus the improvement, the monthly walking hours are
    30 + protection_score/4 of the top dog, and the deterrent effect is
    the one stored on the top dog. *)
Theorem impact_of_a_ranked_list
    (heap heap' : store) (nd : Neighborhood) (size_pref pref : string)
    (top : nat) (rest : list nat) :
  _get_personalized_recommendations heap nd size_pref pref
  = (heap', Ok (top :: rest)) ->
  exists m,
    _calculate_impact_metrics heap' nd (top :: rest) = Ok (Some m)
    /\ dogs_saved m = S (length rest) /\ (1 <= dogs_saved m <= 5)%nat
    /\ current_safety_score m = safety_score nd
    /\ impact_safety_improvement m <= 30
    /\ new_safety_score m <= 100
    /\ new_safety_score m <= current_safety_score m + impact_safety_improvement m
    /\ monthly_walking_hours m
       == 30 + inject_Z (protection_score (heap !!! top)) / 4
    /\ safety_improvement (heap' !!! top) = Some (impact_safety_improvement m)
    /\ deterrent_effect (heap' !!! top) = Some (impact_deterrent_effect m).
Proof.
  intros H.
  destruct (ranked_dog_scored _ _ _ _ _ _ top H ltac:(by left)) as [_ Hs].
  pose proof (ranker_length _ _ _ _ _ _ H) as Hlen.
  assert (Hfive : (S (length rest) <= 5)%nat) by (cbn [length] in Hlen; lia).
  clear Hlen.
  apply score_dog_benefits in Hs as (_ & Hsi & Hme & de & Hde).
  unfold _calculate_impact_metrics. rewrite Hsi, Hme, Hde. cbn.
  eexists. split; [reflexivity|]. cbn.
  set (p := inject_Z (protection_score (heap !!! top))).
  repeat split; try lia; try reflexivity.
  - apply Q.le_min_l.
  - apply Q.le_min_l.
  - apply Q.le_min_r.
  - field.
Qed.

Lemma impact_of_a_ranked_list_witness :
  exists m,
    _calculate_impact_metrics
      (fst (_get_personalized_recommendations sample_dogs sample_neighborhood
              "Any" "Medium"))
      sample_neighborhood [1; 0; 2]%nat = Ok (Some m)
    /\ dogs_saved m = 3%nat.
Proof.
  destruct (impact_of_a_ranked_list sample_dogs
              (fst (_get_personalized_recommendations sample_dogs
                      sample_neighborhood "Any" "Medium"))
              sample_neighborhood "Any" "Medium" 1%nat [0; 2]%nat eq_refl)
    as (m & Hm & Hd & _).
  exists m. split; [exact Hm | exact Hd].
Defined.

(** * More on the entry point *)

(** X24.  The entry point never changes the neighborhoods, the length of
    the catalog or a construction-time key of a dog; and with no click,
    no neighborhood or an empty neighborhood name it returns the
    selection prompt and leaves the data untouched. *)
Theorem entry_point_frame
    (real_data : RealData) (n_clicks : Z) (neighborhood : option string)
    (size_pref protection_pref : string) :
  let after := fst (update_recommendations real_data n_clicks neighborhood
                      size_pref protection_pref) in
  neighborhoods after = neighborhoods real_data
  /\ length (dogs after) = length (dogs real_data)
  /\ map at_construction (dogs after) = map at_construction (dogs real_data)
  /\ (n_clicks = 0%Z \/ neighborhood = None \/ neighborhood = Some "" ->
      update_recommendations real_data n_clicks neighborhood size_pref protection_pref
      = (real_data, Ok SelectPrompt)).
Proof.
  cbn zeta. unfold update_recommendations.
  destruct ((n_clicks =? 0)%Z || not_neighborhood neighborhood) eqn:Egate.
  - cbn. repeat split; done.
  - assert (Hframe :
      neighborhoods (fst (match dict_lookup (neighborhoods real_data)
                                  (default "" neighborhood) with
        | Some nd =>
            let '(heap, recommended) :=
              _get_personalized_recommendations (dogs real_data) nd
                size_pref protection_pref in
            ({| neighborhoods := neighborhoods real_data; dogs := heap |},
             recommended_dogs ← recommended;
             impact_metrics ← _calculate_impact_metrics heap nd recommended_dogs;
             Ok (_create_results_layout heap (default "" neighborhood) nd
                   recommended_dogs impact_metrics))
        | None => (real_data, Ok (NotFound (default "" neighborhood)))
        end)) = neighborhoods real_data
      /\ map at_construction (dogs (fst (match dict_lookup (neighborhoods real_data)
                                  (default "" neighborhood) with
        | Some nd =>
            let '(heap, recommended) :=
              _get_personalized_recommendations (dogs real_data) nd
                size_pref protection_pref in
            ({| neighborhoods := neighborhoods real_data; dogs := heap |},
             recommended_dogs ← recommended;
             impact_metrics ← _calculate_impact_metrics heap nd recommended_dogs;
             Ok (_create_results_layout heap (default "" neighborhood) nd
                   recommended_dogs impact_metrics))
        | None => (real_data, Ok (NotFound (default "" neighborhood)))
        end))) = map at_construction (dogs real_data)).
    { destruct (dict_lookup _ _) as [nd|]; [|done].
      pose proof (request_preserves_construction_fields (dogs real_data) nd
                    size_pref protection_pref) as Hf.
      destruct (_get_personalized_recommendations _ _ _ _) as [h r]. cbn in *.
      done. }
    destruct Hframe as [Hn Hm]. split; [exact Hn|]. split; [|split; [exact Hm|]].
    + rewrite <- (length_map at_construction), Hm. apply length_map.
    + intros Hg. exfalso. apply orb_false_iff in Egate as [Hc Hnb].
      destruct Hg as [->|[->| ->]]; discriminate.
Qed.

Lemma entry_point_frame_witness :
  update_recommendations sample_data 0 (Some "Mission") "Any" "Medium"
  = (sample_data, Ok SelectPrompt).
Proof.
  destruct (entry_point_frame sample_data 0 (Some "Mission") "Any" "Medium")
    as (_ & _ & _ & H).
  apply H. by left.
Defined.

Lemma impact_returns (heap heap' : store) (nd : Neighborhood)
    (size_pref pref : string) (top : nat) (rest : list nat) :
  _get_personalized_recommendations heap nd size_pref pref
  = (heap', Ok (top :: rest)) ->
  exists m, _calculate_impact_metrics heap' nd (top :: rest) = Ok (Some m)
            /\ dogs_saved m = S (length rest).
Proof.
  intros H.
  destruct (ranked_dog_scored _ _ _ _ _ _ top H ltac:(by left)) as [_ Hs].
  apply score_dog_benefits in Hs as (_ & Hsi & Hme & de & Hde).
  unfold _calculate_impact_metrics. rewrite Hsi, Hme, Hde. cbn.
  eexists. split; reflexivity.
Qed.

(** X25.  On neighborhoods built by the profile builder, with any catalog
    and any of the four protection preferences, the entry point never
    raises.  It returns the prompt only when nothing was submitted, the
    not-found page only for a name that is not in the rental table, the
    no-match page only when the size filter retains no dog, and
    otherwise a results page for the profile of that name with between
    1 and 5 dogs (5, or all retained dogs when fewer), each of the
    preferred size and carrying a compatibility score, and an impact
    record that counts these dogs. *)
Theorem built_neighborhoods_request_outcomes
    (rental_df : list RentalRow) (crime_df : list CrimeRow)
    (walkability_df : list WalkRow) (heap : store) (n_clicks : Z)
    (neighborhood : option string) (size_pref : string) (p : ProtectionPref) :
  let real_data :=
    {| neighborhoods := _process_neighborhood_data rental_df crime_df walkability_df;
       dogs := heap |} in
  exists page,
    snd (update_recommendations real_data n_clicks neighborhood size_pref
           (pref_value p)) = Ok page
    /\ match page with
       | SelectPrompt =>
           n_clicks = 0%Z \/ neighborhood = None \/ neighborhood = Some ""
       | NotFound name =>
           neighborhood = Some name
           /\ name ∉ map rent_analysis_neighborhood rental_df
       | NoMatches => retained heap size_pref = []
       | Results name nd recs impact =>
           neighborhood = Some name
           /\ dict_lookup (neighborhoods real_data) name = Some nd
           /\ (1 <= length recs <= 5)%nat
           /\ length recs = Nat.min 5 (length (retained heap size_pref))
           /\ (exists m, impact = Some m /\ dogs_saved m = length recs)
           /\ Forall (fun dog => (size_pref = "Any" \/ size dog = size_pref)
                                 /\ is_Some (compatibility_score dog)) recs
       end.
Proof.
  cbn zeta. unfold update_recommendations. cbn [neighborhoods dogs].
  destruct ((n_clicks =? 0)%Z || not_neighborhood neighborhood) eqn:Egate.
  { exists SelectPrompt. split; [done|].
    apply orb_true_iff in Egate as [H|H].
    - left. by apply Z.eqb_eq.
    - right. destruct neighborhood as [s|]; [|by left]. right.
      cbn in H. apply String.eqb_eq in H. by rewrite H. }
  apply orb_false_iff in Egate as [_ Hnb].
  destruct neighborhood as [name|]; [|discriminate].
  change (default "" (Some name)) with name.
  rewrite neighborhood_lookup_profile.
  destruct (decide (name ∈ map rent_analysis_neighborhood rental_df)) as [Hin|Hin].
  2:{ exists (NotFound name). split; [reflexivity|]. split; [reflexivity | exact Hin]. }
  set (nd := neighborhood_profile _ _ _).
  destruct (ranker_returns heap nd size_pref (pref_value p)) as (heap' & Hret & _).
  { intros r _. apply score_dog_returns, budget_limit_profile. }
  set (recs := take 5 _) in Hret.
  pose proof (ranker_length _ _ _ _ _ _ Hret) as Hlen.
  rewrite Hret. cbn [snd].
  destruct recs as [|top rest] eqn:Erecs.
  { exists NoMatches. split; [done|].
    destruct (retained heap size_pref); [done | cbn in Hlen; lia]. }
  destruct (impact_returns _ _ _ _ _ _ _ Hret) as (m & Hm & Hsaved).
  eexists. split.
  { cbn [mbind result_bind]. rewrite Hm. reflexivity. }
  cbn beta iota. split; [done|].
  split; [cbn [neighborhoods]; rewrite neighborhood_lookup_profile;
          by rewrite decide_True|].
  rewrite length_map. split; [cbn [length] in Hlen |- *; lia|].
  split; [exact Hlen|]. split; [by exists m|].
  apply Forall_fmap, Forall_forall. intros r Hr. cbn.
  destruct (ranked_dog_scored _ _ _ _ _ _ r Hret Hr) as [Hretained Hs].
  pose proof (request_frame _ _ _ _ _ _ Hret) as [_ Hfr].
  split.
  - apply retained_spec in Hretained as [_ Hsize].
    change (size (heap' !!! r)) with (size (at_construction (heap' !!! r))).
    by rewrite Hfr.
  - apply score_dog_compat in Hs as [_ ->]. by eexists.
Qed.

(** * The breed keywords *)

Lemma prefix_app (a b : string) : String.prefix a (a ++ b) = true.
Proof.
  induction a as [|c a IH]; simpl; [by destruct b|].
  destruct (Ascii.ascii_dec c c); [exact IH | done].
Qed.

Lemma prefix_split (a s : string) :
  String.prefix a s = true -> exists post, s = a ++ post.
Proof.
  revert s. induction a as [|c a IH]; intros s.
  - intros _. by exists s.
  - destruct s as [|c' s]; simpl; [intros; discriminate|].
    destruct (Ascii.ascii_dec c c') as [->|]; [|intros; discriminate].
    intros H. destruct (IH s H) as [post ->]. by exists post.
Qed.

Lemma contains_iff (needle hay : string) :
  contains needle hay = true <-> exists pre post, hay = pre ++ needle ++ post.
Proof.
  split.
  - induction hay as [|c hay IH]; cbn [contains]; rewrite orb_true_iff.
    + intros [H|H]; [|discriminate].
      destruct (prefix_split _ _ H) as [post ->]. by exists "", post.
    + intros [H|H].
      * destruct (prefix_split _ _ H) as [post ->]. by exists "", post.
      * destruct (IH H) as (pre & post & ->). by exists (String c pre), post.
  - intros (pre & post & ->). induction pre as [|c pre IH].
    + change ("" ++ needle ++ post) with (needle ++ post).
      destruct (needle ++ post) eqn:E; cbn [contains];
        rewrite <- E, prefix_app; reflexivity.
    + change (String c pre ++ needle ++ post)
        with (String c (pre ++ needle ++ post)).
      cbn [contains]. rewrite IH. apply orb_true_r.
Qed.

(** X26.  The breed bonus of 25 (before the cap at 100) is applied when
    one of the protective keywords occurs anywhere in the lower-cased
    breed, and is not applied when none occurs; without the bonus the
    score is at most 85. *)
Theorem breed_bonus_iff_keyword_occurs (size breed age : string) :
  let plain := _calculate_protection_score size "" age in
  ((exists kw pre post, kw ∈ protective_breeds /\ lower breed = pre ++ kw ++ post) ->
   _calculate_protection_score size breed age = Z.min 100 (plain + 25))
  /\ ((forall kw pre post, kw ∈ protective_breeds -> lower breed <> pre ++ kw ++ post) ->
      _calculate_protection_score size breed age = plain)
  /\ (plain <= 85)%Z.
Proof.
  cbn zeta.
  assert (Hb : existsb (fun pb => contains pb (lower breed)) protective_breeds = true
               <-> exists kw pre post, kw ∈ protective_breeds
                                       /\ lower breed = pre ++ kw ++ post).
  { rewrite existsb_exists. split.
    - intros (kw & Hin & Hc). apply contains_iff in Hc as (pre & post & E).
      exists kw, pre, post. split; [by apply list_elem_of_In | exact E].
    - intros (kw & pre & post & Hin & E). exists kw.
      split; [by apply list_elem_of_In|]. apply contains_iff. eauto. }
  unfold _calculate_protection_score.
  change (existsb (fun pb => contains pb (lower "")) protective_breeds) with false.
  destruct (existsb (fun pb => contains pb (lower breed)) protective_breeds) eqn:E.
  - split; [|split].
    + intros _.
      repeat match goal with
             | |- context [if ?c then _ else _] => destruct c
             end; lia.
    + intros Hno. exfalso. destruct (proj1 Hb eq_refl) as (kw & pre & post & Hin & Hl).
      by apply (Hno kw pre post).
    + repeat match goal with
             | |- context [if ?c then _ else _] => destruct c
             end; lia.
  - split; [|split].
    + intros Hyes. apply Hb in Hyes. discriminate.
    + intros _. reflexivity.
    + repeat match goal with
             | |- context [if ?c then _ else _] => destruct c
             end; lia.
Qed.

Lemma breed_bonus_iff_keyword_occurs_witness :
  _calculate_protection_score "Small" "Old English BULLDOG mix" "Baby" = 70%Z.
Proof.
  destruct (breed_bonus_iff_keyword_occurs "Small" "Old English BULLDOG mix" "Baby")
    as (H & _).
  rewrite H; [reflexivity|].
  exists "bulldog", "old english ", " mix". split; [|reflexivity].
  unfold protective_breeds. rewrite !elem_of_cons. tauto.
Defined.

Lemma crime_color_vs_protection_need_witness :
  protection_need (neighborhood_profile 20 10 2000) = "Low".
Proof.
  destruct (crime_color_vs_protection_need 20 10 2000) as (H & _).
  apply H. reflexivity.
Defined.

Lemma budget_match_raises_only_at_zero_budget_witness :
  exists m, _calculate_budget_match sample_neighborhood (priced 110) = Ok m.
Proof.
  apply (budget_match_raises_only_at_zero_budget sample_neighborhood (priced 110)).
  intros H. discriminate H.
Defined.
